(** * Portfolio block extractor: [parse_portfolio_html.py] and
      [build_portfolio_list.py]

    Both scripts split an HTML text on a block-boundary pattern, search each
    block for a title, an anchor and an image with [re.search], and collect
    one record per block.  This file embeds the regular expressions of the
    scripts, Python's backtracking matcher for them, [re.search], [re.split],
    [str.strip] and the two [main] functions, and proves the properties that
    the specification states about them.

    A Python [str] is a sequence of code points.  The model keeps the code
    points below 256 (type [ascii]), on which [\d] is [0-9] and the white
    space of [\s] and [str.strip] is 9..13, 28..32, 133 and 160. *)

From Stdlib Require Import String Ascii List Bool Arith Lia.
From Stdlib Require Import DecimalString.
Import ListNotations.

(** ** Strings *)

Module Str.

Definition str := list ascii.

(** The double quote, written by its code: U+0022. *)
Definition dq : ascii := "034"%char.

Definition lit (s : string) : str := list_ascii_of_string s.

(** [sq] reads a literal in which every apostrophe stands for a double
    quote, so that the patterns and the examples can be written in one
    piece. *)
Definition sq (s : string) : str :=
  map (fun c => if Ascii.eqb c "'"%char then dq else c) (lit s).

(** [str.isspace] on one code point below 256; [\s] of a [str] pattern
    tests the same set. *)
Definition is_space (c : ascii) : bool :=
  let n := nat_of_ascii c in
  ((9 <=? n) && (n <=? 13)) || ((28 <=? n) && (n <=? 32))
  || (n =? 133) || (n =? 160).

(** [\d] on one code point below 256. *)
Definition is_digit (c : ascii) : bool :=
  let n := nat_of_ascii c in (48 <=? n) && (n <=? 57).

(** [[^x]]: any code point but [x], line breaks included. *)
Definition not_char (x : ascii) (c : ascii) : bool := negb (Ascii.eqb c x).

Fixpoint drop_while (p : ascii -> bool) (s : str) : str :=
  match s with
  | [] => []
  | c :: s' => if p c then drop_while p s' else s
  end.

Fixpoint take_while (p : ascii -> bool) (s : str) : str :=
  match s with
  | [] => []
  | c :: s' => if p c then c :: take_while p s' else []
  end.

(** [s.strip()]: white space removed at both ends. *)
Definition strip (s : str) : str :=
  rev (drop_while is_space (rev (drop_while is_space s))).

Fixpoint str_eqb (a b : str) : bool :=
  match a, b with
  | [], [] => true
  | x :: a', y :: b' => Ascii.eqb x y && str_eqb a' b'
  | _, _ => false
  end.

Fixpoint starts_with (p s : str) : bool :=
  match p, s with
  | [], _ => true
  | x :: p', y :: s' => Ascii.eqb x y && starts_with p' s'
  | _ :: _, [] => false
  end.

(** [needle in hay] on strings. *)
Fixpoint contains (needle hay : str) : bool :=
  starts_with needle hay ||
  match hay with
  | [] => false
  | _ :: hay' => contains needle hay'
  end.

(** [x in (a, b, ...)] on strings. *)
Definition in_tuple (x : str) (t : list str) : bool := existsb (str_eqb x) t.

(** Truth value of a string: the empty string is false. *)
Definition truthy (s : str) : bool :=
  match s with [] => false | _ :: _ => true end.

(** [a or b] on strings. *)
Definition py_or (a b : str) : str := if truthy a then a else b.

End Str.
Import Str.

(** ** Regular expressions

    The four patterns of the scripts are sequences of literal characters,
    greedy repetitions of one character class, and one capturing group
    around such a repetition.  [node] has exactly these forms. *)

Module Re.

Inductive node : Type :=
| Chr (c : ascii)                 (* a literal character *)
| Plus (cls : ascii -> bool)      (* [cls+], greedy *)
| Star (cls : ascii -> bool)      (* [cls*], greedy *)
| Group (cls : ascii -> bool).    (* [(cls+)], the capturing group 1 *)

Definition regex := list node.

Definition chars (s : str) : regex := map Chr s.

(** Greedy repetition with backtracking: consume characters of [cls] as long
    as possible, then run the continuation [k]; when it fails give back one
    character and try again.  The result holds the consumed text. *)
Fixpoint rep {R : Type} (cls : ascii -> bool) (k : str -> option R) (s : str)
  : option (str * R) :=
  match s with
  | c :: s' =>
      if cls c then
        match rep cls k s' with
        | Some (w, r) => Some (c :: w, r)
        | None => option_map (pair []) (k s)
        end
      else option_map (pair []) (k s)
  | [] => option_map (pair []) (k s)
  end.

(** [match_here re s] matches [re] at the start of [s] the way the
    backtracking matcher does and returns the text of group 1 (empty when
    the pattern has no group) and the text after the match. *)
Fixpoint match_here (re : regex) (s : str) : option (str * str) :=
  match re with
  | [] => Some ([], s)
  | Chr c :: re' =>
      match s with
      | x :: s' => if Ascii.eqb x c then match_here re' s' else None
      | [] => None
      end
  | Star cls :: re' => option_map snd (rep cls (match_here re') s)
  | Plus cls :: re' =>
      match s with
      | x :: s' =>
          if cls x then option_map snd (rep cls (match_here re') s') else None
      | [] => None
      end
  | Group cls :: re' =>
      match s with
      | x :: s' =>
          if cls x then
            match rep cls (match_here re') s' with
            | Some (w, (_, rest)) => Some (x :: w, rest)
            | None => None
            end
          else None
      | [] => None
      end
  end.

(** The match object of [re.search]: the text before the match, group 1 and
    the text after the match. *)
Record match_obj : Type := MatchObj {
  m_before : str;
  m_group1 : str;
  m_after : str
}.

(** [re.search(re, s)]: the match at the leftmost position that has one, or
    [None]. *)
Fixpoint search (re : regex) (s : str) : option match_obj :=
  match match_here re s with
  | Some (g, rest) => Some (MatchObj [] g rest)
  | None =>
      match s with
      | [] => None
      | c :: s' =>
          match search re s' with
          | Some m => Some (MatchObj (c :: m_before m) (m_group1 m) (m_after m))
          | None => None
          end
      end
  end.

(** The loop of [re.split] for a pattern without group that matches no empty
    text: search from the end of the previous match, emit the text in
    between.  A match consumes a character, so [length s] rounds suffice;
    [split_loop_fuel] below shows that more rounds change nothing. *)
Fixpoint split_loop (fuel : nat) (re : regex) (s : str) : list str :=
  match fuel with
  | 0 => [s]
  | S fuel' =>
      match search re s with
      | None => [s]
      | Some m => m_before m :: split_loop fuel' re (m_after m)
      end
  end.

Definition split (re : regex) (s : str) : list str :=
  split_loop (length s) re s.

(** The language of a pattern, without any matching order: [lang re s g rest]
    holds when [s] is a text of the pattern followed by [rest], with [g] the
    text of the group. *)
Fixpoint lang (re : regex) (s g rest : str) : Prop :=
  match re with
  | [] => s = rest /\ g = []
  | Chr c :: re' => exists s', s = c :: s' /\ lang re' s' g rest
  | Star cls :: re' =>
      exists w s', s = w ++ s' /\ forallb cls w = true /\ lang re' s' g rest
  | Plus cls :: re' =>
      exists w s', s = w ++ s' /\ w <> [] /\ forallb cls w = true
                   /\ lang re' s' g rest
  | Group cls :: re' =>
      exists s' g', s = g ++ s' /\ g <> [] /\ forallb cls g = true
                    /\ lang re' s' g' rest
  end.

End Re.
Import Re.

(** ** The patterns of the scripts *)

(** The patterns are quoted with an apostrophe for each double quote.

    [<div id='div_block-4-15103-\d+'] *)
Definition block_lit : str := sq "<div id='div_block-4-15103-".
Definition block_re : regex := chars block_lit ++ [Plus is_digit; Chr dq].

(** [<span id='span-225-15124-\d+'[^>]*>([^<]+)</span>] *)
Definition title_lit : str := sq "<span id='span-225-15124-".
Definition title_re : regex :=
  chars title_lit
  ++ [Plus is_digit; Chr dq; Star (not_char ">"); Chr ">"%char;
      Group (not_char "<")]
  ++ chars (lit "</span>").

(** [<a\s+href='([^']+)'] *)
Definition link_re : regex :=
  chars (lit "<a") ++ [Plus is_space] ++ chars (sq "href='")
  ++ [Group (not_char dq); Chr dq].

(** [<img[^>]+src='([^']+)'] *)
Definition img_re : regex :=
  chars (lit "<img") ++ [Plus (not_char ">")] ++ chars (sq "src='")
  ++ [Group (not_char dq); Chr dq].

(** ** Python values that can fail *)

Module Py.

Inductive exn : Type := AttributeError.

(** A computation returns a value or raises. *)
Inductive result (A : Type) : Type :=
| Ret (a : A)
| Raise (e : exn).

Arguments Ret {A} a.
Arguments Raise {A} e.

Definition bind {A B : Type} (c : result A) (k : A -> result B) : result B :=
  match c with
  | Ret a => k a
  | Raise e => Raise e
  end.

(** Truth value of the result of [re.search]: a match object is true, [None]
    is false. *)
Definition is_match (m : option match_obj) : bool :=
  match m with Some _ => true | None => false end.

(** [m.group(1)]: an attribute access, which raises on [None]. *)
Definition group1 (m : option match_obj) : result str :=
  match m with
  | Some m => Ret (m_group1 m)
  | None => Raise AttributeError
  end.

End Py.
Import Py.

Notation "x <- c ;; k" := (bind c (fun x => k))
  (at level 61, c at next level, right associativity).

(** ** The two scripts *)

Record PortfolioItem : Type := Item {
  index : nat;
  title : str;
  image : str;
  link : str
}.

Definition placeholder : str := lit "(no link)".

(** [enumerate(l)] *)
Definition enumerate {A : Type} (l : list A) : list (nat * A) :=
  combine (seq 0 (length l)) l.

(** [for i, block in enumerate(blocks): out.append(body(i, block))], with
    the list [out] threaded through the iterations. *)
Fixpoint for_blocks (body : nat -> str -> result PortfolioItem)
    (it : list (nat * str)) (out : list PortfolioItem)
  : result (list PortfolioItem) :=
  match it with
  | [] => Ret out
  | (i, block) :: it' =>
      o <- body i block ;;
      for_blocks body it' (out ++ [o])
  end.

(** The fields that both scripts compute in the same way. *)
Definition title_of (block : str) : result str :=
  let title_m := search title_re block in
  if is_match title_m then g <- group1 title_m ;; Ret (strip g) else Ret [].

Definition img_of (block : str) : result str :=
  let img_m := search img_re block in
  if is_match img_m then g <- group1 img_m ;; Ret (strip g) else Ret [].

(** [parse_portfolio_html.py] *)
Module Parse.

Definition link_of (block : str) : result str :=
  let link_m := search link_re block in
  link <- (if is_match link_m then g <- group1 link_m ;; Ret (strip g)
           else Ret []) ;;
  let link := if in_tuple link [[]; lit "#"] then [] else link in
  Ret link.

(** The body of the loop. *)
Definition item (i : nat) (block : str) : result PortfolioItem :=
  title <- title_of block ;;
  link <- link_of block ;;
  img <- img_of block ;;
  Ret {| index := i + 1; title := title; image := img;
         link := py_or link placeholder |}.

(** [main] from the split on: the list [out] that is printed. *)
Definition main (html : str) : result (list PortfolioItem) :=
  let blocks := split block_re html in
  let blocks := skipn 1 blocks in
  for_blocks item (enumerate blocks) [].

End Parse.

(** [build_portfolio_list.py] *)
Module Build.

Definition sentinel : str := lit "div_block-4-15103-2".

Definition diagnostic : str :=
  lit "Paste the full portfolio HTML into the HTML variable in this script.".

(** What a run does: it prints the diagnostic on stderr and returns, or it
    writes the list of [out] to [portfolio_list.txt] and prints their
    number. *)
Inductive outcome : Type :=
| Refused (stderr : str)
| Wrote (out : list PortfolioItem).

Definition link_of (block : str) : result str :=
  let link_m := search link_re block in
  link <- (if is_match link_m then g <- group1 link_m ;; Ret (strip g)
           else Ret []) ;;
  let link := strip link in
  let link := if in_tuple link [[]; lit "#"] then placeholder else link in
  Ret link.

Definition item (i : nat) (block : str) : result PortfolioItem :=
  title <- title_of block ;;
  link <- link_of block ;;
  img <- img_of block ;;
  Ret {| index := i + 1; title := title; image := img; link := link |}.

(** The extraction of [main], after the guard. *)
Definition extract (HTML : str) : result (list PortfolioItem) :=
  let blocks := split block_re HTML in
  let blocks := skipn 1 blocks in
  for_blocks item (enumerate blocks) [].

Definition guard (HTML : str) : bool :=
  negb (truthy (strip HTML)) || negb (contains sentinel HTML).

Definition main (HTML : str) : result outcome :=
  if guard HTML then Ret (Refused diagnostic)
  else out <- extract HTML ;; Ret (Wrote out).

End Build.

(** ** Vocabulary of the specification

    The markers as texts, stated without the matcher. *)

(** The text of a block-boundary marker: the literal, digits, a quote. *)
Definition block_marker (m : str) : Prop :=
  exists ds, ds <> [] /\ forallb is_digit ds = true /\
             m = block_lit ++ ds ++ [dq].

(** Does a block-boundary marker start [s]? *)
Definition marker_here (s : str) : bool :=
  starts_with block_lit s &&
  (let t := skipn (length block_lit) s in
   truthy (take_while is_digit t) && starts_with [dq] (drop_while is_digit t)).

(** The number of positions of [s] at which a block-boundary marker
    starts. *)
Fixpoint count_markers (s : str) : nat :=
  match s with
  | [] => 0
  | _ :: s' => (if marker_here s then 1 else 0) + count_markers s'
  end.

(** The fields of an item as functions of its block: what the loop body
    computes when nothing raises ([parse_item_ret], [build_item_ret]). *)
Definition title_field (block : str) : str :=
  match search title_re block with
  | Some m => strip (m_group1 m)
  | None => []
  end.

Definition img_field (block : str) : str :=
  match search img_re block with
  | Some m => strip (m_group1 m)
  | None => []
  end.

(** The captured anchor value, absent when the block has no anchor marker. *)
Definition anchor_value (block : str) : option str :=
  option_map m_group1 (search link_re block).

Definition link_field (block : str) : str :=
  match anchor_value block with
  | Some v => if in_tuple (strip v) [[]; lit "#"] then placeholder else strip v
  | None => placeholder
  end.

Definition item_at (n : nat) (block : str) : PortfolioItem :=
  {| index := n; title := title_field block; image := img_field block;
     link := link_field block |}.

(** The blocks of a text: the segments of the split after the preamble. *)
Definition blocks_of (html : str) : list str := skipn 1 (split block_re html).

Definition items_of (html : str) : list PortfolioItem :=
  map (fun p => item_at (fst p + 1) (snd p)) (enumerate (blocks_of html)).

(** The text of a title marker and its inner text: the span with its
    numbered id, further attributes up to [>], a text without [<], and the
    closing tag. *)
Definition title_marker (m inner : str) : Prop :=
  exists ds attrs,
    ds <> [] /\ forallb is_digit ds = true /\
    forallb (not_char ">") attrs = true /\
    inner <> [] /\ forallb (not_char "<") inner = true /\
    m = title_lit ++ ds ++ dq :: attrs ++ ">"%char :: inner ++ lit "</span>".

(** The text of an anchor marker and its target. *)
Definition anchor_marker (m url : str) : Prop :=
  exists ws,
    ws <> [] /\ forallb is_space ws = true /\
    url <> [] /\ forallb (not_char dq) url = true /\
    m = lit "<a" ++ ws ++ sq "href='" ++ url ++ [dq].

(** The text of an image marker and its source. *)
Definition image_marker (m url : str) : Prop :=
  exists a,
    a <> [] /\ forallb (not_char ">") a = true /\
    url <> [] /\ forallb (not_char dq) url = true /\
    m = lit "<img" ++ a ++ sq "src='" ++ url ++ [dq].

Section Occurrences.

Variable M : str -> str -> Prop.

(** A marker of the kind [M] starts the text [s]. *)
Definition starts (s : str) : Prop :=
  exists m g rest, M m g /\ s = m ++ rest.

(** No marker starts inside [pre] when [pre] is followed by [t]: a marker
    that starts [t] is the first of [pre ++ t]. *)
Definition none_inside (pre t : str) : Prop :=
  forall p1 p2, pre = p1 ++ p2 -> p2 <> [] -> ~ starts (p2 ++ t).

(** No marker starts anywhere in the block. *)
Definition absent (block : str) : Prop :=
  forall p t, block = p ++ t -> ~ starts t.

End Occurrences.

(** The same two tests by running the matcher at each position. *)
Definition matches (re : regex) (s : str) : bool :=
  match match_here re s with Some _ => true | None => false end.

Fixpoint none_inside_b (re : regex) (pre t : str) : bool :=
  match pre with
  | [] => true
  | _ :: pre' => negb (matches re (pre ++ t)) && none_inside_b re pre' t
  end.

Definition absent_b (re : regex) (block : str) : bool :=
  match search re block with Some _ => false | None => true end.

(** The part of the image pattern after [[^>]+]. *)
Definition src_re : regex :=
  chars (sq "src='") ++ [Group (not_char dq); Chr dq].

(** A string without white space at either end. *)
Definition trimmed (s : str) : Prop :=
  (forall c t, s = c :: t -> is_space c = false) /\
  (forall t c, s = t ++ [c] -> is_space c = false).

(** What the link field holds for a captured anchor value after trimming. *)
Definition normalized (v : str) : str :=
  if in_tuple v [[]; lit "#"] then placeholder else v.


(** ** The list [out] as an object

    [out = []] makes a new list object and [out.append(o)] changes that
    object in place.  To state what a second call of [main] finds of the
    first, the list objects live in a heap that one call hands to the next,
    next to the module constant [HTML] of [build_portfolio_list.py]. *)

Module Heap.

Definition addr : Type := nat.

Record heap : Type := MkHeap {
  module_HTML : str;                       (* the global [HTML] *)
  next : addr;                             (* the next free address *)
  lists : addr -> list PortfolioItem       (* the list objects *)
}.

(** [[]]: a new list object at a fresh address. *)
Definition new_list (h : heap) : addr * heap :=
  (next h,
   {| module_HTML := module_HTML h; next := S (next h);
      lists := fun a => if a =? next h then [] else lists h a |}).

(** [l.append(o)]: the object at [l] grows, every other object stays. *)
Definition append (l : addr) (o : PortfolioItem) (h : heap) : heap :=
  {| module_HTML := module_HTML h; next := next h;
     lists := fun a => if a =? l then lists h l ++ [o] else lists h a |}.

(** The loop over the blocks, appending to the object [out]. *)
Fixpoint for_blocks_in (body : nat -> str -> result PortfolioItem)
    (it : list (nat * str)) (out : addr) (h : heap) : result heap :=
  match it with
  | [] => Ret h
  | (i, block) :: it' =>
      o <- body i block ;;
      for_blocks_in body it' out (append out o h)
  end.

(** [main] of [parse_portfolio_html.py] from the split on, in a heap: the
    address bound to [out] and the heap it leaves. *)
Definition parse_main (html : str) (h : heap) : result (addr * heap) :=
  let blocks := split block_re html in
  let blocks := skipn 1 blocks in
  let (out, h) := new_list h in
  h <- for_blocks_in Parse.item (enumerate blocks) out h ;;
  Ret (out, h).

(** The extraction of [main] of [build_portfolio_list.py], which reads the
    global [HTML]. *)
Definition build_extract (h : heap) : result (addr * heap) :=
  let blocks := split block_re (module_HTML h) in
  let blocks := skipn 1 blocks in
  let (out, h) := new_list h in
  h <- for_blocks_in Build.item (enumerate blocks) out h ;;
  Ret (out, h).

End Heap.

(** ** Sample texts *)

(** A block-boundary marker with the number [n]. *)
Definition boundary (n : string) : str := block_lit ++ lit n ++ [dq].

(** Two blocks after a preamble; the second has no title and a bare [#]
    as its first anchor. *)
Definition two_blocks : str :=
  sq "<html>"
  ++ boundary "1"
  ++ sq " class='b'><span id='span-225-15124-1' class='t'> Alpha </span>"
  ++ sq "<a  href='http://x/a'>go</a><img class='i' src='a.png'>"
  ++ boundary "2"
  ++ sq "><a href='#'><a href='later'><img src='b.png'><img src='c.png'>".

(** One block only: the sentinel of the guard is missing. *)
Definition one_block : str :=
  sq "<html>" ++ boundary "1" ++ sq "><a href='http://x/a'>".



(** A lazily loaded image, with [data-src] after [src], before a second
    image. *)
Definition two_src_block : str :=
  sq "<img src='a.png' data-src='b.png'><img src='c.png'>".

(** An image tag that is not closed before the next one. *)
Definition unclosed_img_block : str :=
  sq "<img src='a.png' <img src='b.png'>".

(** ** The scripts as programs: arguments, files and output

    The parts of the two [main] functions around the extraction: where
    [parse_portfolio_html.py] takes its text from, what both scripts print
    and what [build_portfolio_list.py] writes. *)

Module Run.

(** The line feed, U+000A. *)
Definition nl : ascii := "010"%char.

(** [str(n)] of a number that is not negative. *)
Definition dec (n : nat) : str :=
  lit (NilEmpty.string_of_uint (Nat.to_uint n)).

(** What a path of the file system leads to: nothing, a file with its
    decoded text, or something that [read_text] cannot read. *)
Inductive file : Type :=
| Missing
| Text (content : str)
| Unreadable.

(** What [sys.stdin.read()] gives: the decoded text, or bytes that the
    encoding of the stream does not decode (the call sets no [errors=]). *)
Inductive input : Type :=
| Decoded (s : str)
| Undecodable.

(** What a run finds around it.  [prog] is [sys.argv[0]] and [args] the
    arguments after it; [files] is the file system, asked with the string
    that the path was built from; [shown] is the text of [Path(s)] in a
    formatted string; [source_path] and [list_path] are the texts of the
    paths of [portfolio_source.html] and [portfolio_list.txt] two levels
    above the script.  [writable] tells whether the output of
    [build_portfolio_list.py] goes through: [portfolio_list.txt] is opened,
    written and closed and the report is printed without an error.  When it
    does not, [left_behind] is what the failed output leaves in the file:
    nothing when [open] failed, a part of the lines when a write failed, all
    of them when the last [print] failed. *)
Record world : Type := World {
  prog : str;
  args : list str;
  stdin : input;
  files : str -> file;
  shown : str -> str;
  source_path : str;
  list_path : str;
  writable : bool;
  left_behind : option str
}.

Inductive failure : Type :=
| Uncaught (e : exn)       (* an exception raised by the extraction *)
| OSError                  (* raised by [read_text], [open], a write or [print] *)
| UnicodeDecodeError.      (* raised by [sys.stdin.read()] *)

(** How a run ends: [main] returns, [sys.exit(code)], or an exception
    leaves [main]. *)
Inductive ending : Type :=
| Returned
| Exited (code : nat)
| Failed (f : failure).

(** What a run leaves behind: the text printed on each stream, the file
    written (path and content), and how it ended. *)
Record proc : Type := Proc {
  stdout : str;
  stderr : str;
  written : option (str * str);
  status : ending
}.

(** [print(s)] appends [s] and a line feed to the stream. *)
Definition print (stream : str) (s : str) : str := stream ++ s ++ [nl].

(** A [Path] as the scripts use it: the string the file system is asked
    with, and its text in a formatted string. *)
Record path : Type := Path { opened : str; text : str }.

End Run.
Import Run.

(** The rest of [parse_portfolio_html.py] *)
Module ParseIO.

(** The loop [for o in out: print(...); print(...); print(...); print()]. *)
Fixpoint print_items (out : list PortfolioItem) (stream : str) : str :=
  match out with
  | [] => stream
  | o :: out' =>
      let stream :=
        print stream (dec (index o) ++ lit ". **" ++ title o ++ lit "**") in
      let stream := print stream (lit "   - Image: " ++ image o) in
      let stream := print stream (lit "   - Link:  " ++ link o) in
      let stream := print stream [] in
      print_items out' stream
  end.

Definition usage (w : world) : str :=
  lit "Usage: " ++ prog w ++ lit " [path/to/portfolio.html | --stdin]".

(** From the text on: the extraction and the printing. *)
Definition from_html (html : str) : proc :=
  match Parse.main html with
  | Ret out =>
      {| stdout := print_items out []; stderr := []; written := None;
         status := Returned |}
  | Raise e =>
      {| stdout := []; stderr := []; written := None;
         status := Failed (Uncaught e) |}
  end.

Definition main (w : world) : proc :=
  if (1 <? length (prog w :: args w))
     && str_eqb (nth 1 (prog w :: args w) []) (lit "--stdin")
  then
    match stdin w with
    | Decoded html => from_html html
    | Undecodable =>
        {| stdout := []; stderr := []; written := None;
           status := Failed UnicodeDecodeError |}
    end
  else
    let html_path := Path (source_path w) (source_path w) in
    let html_path :=
      if 1 <? length (prog w :: args w)
      then Path (nth 1 (prog w :: args w) [])
                (shown w (nth 1 (prog w :: args w) []))
      else html_path in
    match files w (opened html_path) with
    | Missing =>
        let err := print [] (usage w) in
        let err := print err (lit "Missing: " ++ text html_path) in
        {| stdout := []; stderr := err; written := None; status := Exited 1 |}
    | Unreadable =>
        {| stdout := []; stderr := []; written := None;
           status := Failed OSError |}
    | Text html => from_html html
    end.

End ParseIO.

(** The rest of [build_portfolio_list.py] *)
Module BuildIO.

(** The loop [for i, title, img, link in out: f.write(...)] on the text of
    the file. *)
Fixpoint write_items (out : list PortfolioItem) (f : str) : str :=
  match out with
  | [] => f
  | o :: out' =>
      let f := f ++ dec (index o) ++ lit ". **" ++ title o ++ lit "**" ++ [nl] in
      let f := f ++ lit "   - Image: " ++ image o ++ [nl] in
      let f := f ++ lit "   - Link:  " ++ link o ++ [nl; nl] in
      write_items out' f
  end.

Definition main (w : world) (HTML : str) : proc :=
  match Build.main HTML with
  | Ret (Build.Refused msg) =>
      {| stdout := []; stderr := print [] msg; written := None;
         status := Returned |}
  | Ret (Build.Wrote out) =>
      if writable w then
        {| stdout := print [] (lit "Wrote " ++ dec (length out)
                               ++ lit " items to " ++ list_path w);
           stderr := []; written := Some (list_path w, write_items out []);
           status := Returned |}
      else
        {| stdout := []; stderr := [];
           written := option_map (pair (list_path w)) (left_behind w);
           status := Failed OSError |}
  | Raise e =>
      {| stdout := []; stderr := []; written := None;
         status := Failed (Uncaught e) |}
  end.

End BuildIO.

(** The segments of a split with the markers put back between them. *)
Fixpoint weave (segs ms : list str) : str :=
  match segs, ms with
  | s :: segs', m :: ms' => s ++ m ++ weave segs' ms'
  | s :: _, [] => s
  | [], _ => []
  end.

(** An item with its index moved by [n]. *)
Definition shift (n : nat) (o : PortfolioItem) : PortfolioItem :=
  {| index := n + index o; title := title o; image := image o;
     link := link o |}.

(** * Properties *)

(** ** Strings *)

Section StrFacts.

Lemma str_eqb_eq (a b : str) : str_eqb a b = true <-> a = b.
Proof.
  revert b; induction a as [|x a IH]; intros [|y b]; simpl;
    try (split; [discriminate | congruence]); try tauto.
  rewrite andb_true_iff, Ascii.eqb_eq, IH.
  split; [intros [-> ->]; reflexivity | intros H; inversion H; auto].
Qed.

Lemma starts_with_spec (p s : str) :
  starts_with p s = true <-> exists t, s = p ++ t.
Proof.
  revert s; induction p as [|x p IH]; intros s; simpl.
  - split; [intros _; exists s; reflexivity | reflexivity].
  - destruct s as [|y s].
    + split; [discriminate | intros [t H]; discriminate].
    + rewrite andb_true_iff, Ascii.eqb_eq, IH. split.
      * intros [-> [t ->]]. exists t; reflexivity.
      * intros [t H]. inversion H; subst. split; [reflexivity | exists t; reflexivity].
Qed.

Lemma contains_spec (needle hay : str) :
  contains needle hay = true <-> exists x y, hay = x ++ needle ++ y.
Proof.
  induction hay as [|c hay IH].
  - simpl. rewrite orb_false_r, starts_with_spec. split.
    + intros [t H]. exists [], t. exact H.
    + intros [x [y H]]. destruct x; [exists y; exact H | discriminate].
  - cbn [contains]. rewrite orb_true_iff, starts_with_spec, IH. split.
    + intros [[t H] | [x [y H]]].
      * exists [], t. exact H.
      * exists (c :: x), y. simpl. rewrite H. reflexivity.
    + intros [[|d x] [y H]].
      * left. exists y. exact H.
      * right. inversion H; subst. exists x, y. reflexivity.
Qed.

Lemma drop_while_incl (p : ascii -> bool) (s : str) (c : ascii) :
  In c (drop_while p s) -> In c s.
Proof.
  induction s as [|x s IH]; simpl; [tauto|].
  destruct (p x); simpl; tauto.
Qed.

Lemma drop_while_head (p : ascii -> bool) (s : str) (c : ascii) (t : str) :
  drop_while p s = c :: t -> p c = false.
Proof.
  induction s as [|x s IH]; simpl; [discriminate|].
  destruct (p x) eqn:E; [exact IH|]. intros H; inversion H; subst; exact E.
Qed.

Lemma drop_while_fix (p : ascii -> bool) (s : str) :
  (forall c t, s = c :: t -> p c = false) -> drop_while p s = s.
Proof.
  destruct s as [|x s]; simpl; [reflexivity|].
  intros H. rewrite (H x s eq_refl). reflexivity.
Qed.

Lemma drop_while_all (p : ascii -> bool) (s : str) :
  drop_while p s = [] <-> forallb p s = true.
Proof.
  induction s as [|x s IH]; simpl; [tauto|].
  destruct (p x); simpl; [exact IH | split; discriminate].
Qed.

(** The suffix that [drop_while] leaves keeps the last character. *)
Lemma drop_while_last (p : ascii -> bool) (s : str) (c : ascii) :
  p c = false -> drop_while p (s ++ [c]) = drop_while p s ++ [c].
Proof.
  intros Hc. induction s as [|x s IH]; simpl.
  - rewrite Hc. reflexivity.
  - destruct (p x); [exact IH | reflexivity].
Qed.

Lemma strip_incl (s : str) (c : ascii) : In c (strip s) -> In c s.
Proof.
  unfold strip. intros H. apply in_rev in H.
  apply drop_while_incl in H. apply in_rev in H.
  apply drop_while_incl in H. exact H.
Qed.

Lemma strip_no_trailing (s t : str) (c : ascii) :
  strip s = t ++ [c] -> is_space c = false.
Proof.
  unfold strip. intros H.
  apply (f_equal (@rev ascii)) in H.
  rewrite rev_involutive, rev_app_distr in H. simpl in H.
  exact (drop_while_head _ _ _ _ H).
Qed.

Lemma strip_no_leading (s t : str) (c : ascii) :
  strip s = c :: t -> is_space c = false.
Proof.
  unfold strip. intros H.
  destruct (drop_while is_space s) as [|x u] eqn:E; [discriminate|].
  pose proof (drop_while_head _ _ _ _ E) as Hx.
  simpl in H. rewrite (drop_while_last _ (rev u) _ Hx) in H.
  rewrite rev_app_distr in H. simpl in H. congruence.
Qed.

Lemma strip_idempotent (s : str) : strip (strip s) = strip s.
Proof.
  unfold strip at 1.
  assert (H1 : drop_while is_space (strip s) = strip s).
  { apply drop_while_fix. intros c t. apply strip_no_leading. }
  rewrite H1.
  assert (H2 : drop_while is_space (rev (strip s)) = rev (strip s)).
  { apply drop_while_fix. intros c t H.
    apply (f_equal (@rev ascii)) in H. rewrite rev_involutive in H.
    simpl in H. exact (strip_no_trailing _ _ _ H). }
  rewrite H2. apply rev_involutive.
Qed.

(** A string is blank when it strips to the empty string. *)
Lemma strip_blank (s : str) : strip s = [] <-> forallb is_space s = true.
Proof.
  unfold strip. split.
  - intros H. apply (f_equal (@rev ascii)) in H.
    rewrite rev_involutive in H. simpl in H.
    apply drop_while_all in H. rewrite forallb_forall in H.
    destruct (drop_while is_space s) as [|x u] eqn:E.
    + apply drop_while_all. exact E.
    + pose proof (drop_while_head _ _ _ _ E) as Hx.
      rewrite (H x) in Hx; [discriminate|].
      apply in_rev. rewrite rev_involutive. left; reflexivity.
  - intros H. apply drop_while_all in H. rewrite H. reflexivity.
Qed.

End StrFacts.

(** ** The matcher against the language of a pattern *)

Section Matcher.

Context {R : Type}.
Variable cls : ascii -> bool.
Variable k : str -> option R.

(** What [rep] returns is a split of the input into characters of the class
    and a rest that the continuation accepts. *)
Lemma rep_sound (s w : str) (r : R) :
  rep cls k s = Some (w, r) ->
  forallb cls w = true /\ exists s', s = w ++ s' /\ k s' = Some r.
Proof.
  revert w r. induction s as [|c s IH]; intros w r H; simpl in H.
  - destruct (k []) eqn:E; simpl in H; inversion H; subst.
    split; [reflexivity | exists []; auto].
  - assert (Hback : option_map (pair (@nil ascii)) (k (c :: s)) = Some (w, r) ->
                    forallb cls w = true /\
                    exists s', c :: s = w ++ s' /\ k s' = Some r).
    { destruct (k (c :: s)) eqn:E; simpl; intros H'; inversion H'; subst.
      split; [reflexivity | exists (c :: s); auto]. }
    destruct (cls c) eqn:Ec; [|auto].
    destruct (rep cls k s) as [[w' r']|] eqn:E; [|auto].
    inversion H; subst.
    destruct (IH _ _ eq_refl) as [Hw [s' [-> Hk]]].
    split; [simpl; rewrite Ec; exact Hw | exists s'; auto].
Qed.

(** [rep] fails only when the continuation refuses every split. *)
Lemma rep_none (s : str) :
  rep cls k s = None ->
  forall w s', s = w ++ s' -> forallb cls w = true -> k s' = None.
Proof.
  induction s as [|c s IH]; intros H w s' Hs Hw; simpl in H.
  - destruct w; [|discriminate]. simpl in Hs; subst.
    destruct (k []); [discriminate | reflexivity].
  - destruct w as [|x w].
    + simpl in Hs; subst s'.
      destruct (cls c); [destruct (rep cls k s) as [[? ?]|]; [discriminate|]|];
        destruct (k (c :: s)); [discriminate | reflexivity | discriminate | reflexivity].
    + inversion Hs; subst. simpl in Hw. apply andb_true_iff in Hw as [Hx Hw].
      rewrite Hx in H.
      destruct (rep cls k (w ++ s')) as [[? ?]|] eqn:E; [discriminate|].
      exact (IH eq_refl w s' eq_refl Hw).
Qed.

(** [rep] is greedy: the continuation refuses every longer split. *)
Lemma rep_greedy (s w : str) (r : R) :
  rep cls k s = Some (w, r) ->
  forall w2 s2, s = w2 ++ s2 -> forallb cls w2 = true ->
                length w < length w2 -> k s2 = None.
Proof.
  revert w r. induction s as [|c s IH]; intros w r H w2 s2 Hs Hw2 Hlen.
  - destruct w2; [simpl in Hlen; lia | discriminate].
  - destruct w2 as [|x w2]; [simpl in Hlen; lia|].
    inversion Hs; subst. simpl in Hw2. apply andb_true_iff in Hw2 as [Hx Hw2].
    simpl in H. rewrite Hx in H.
    destruct (rep cls k (w2 ++ s2)) as [[w' r']|] eqn:E.
    + inversion H; subst. simpl in Hlen.
      apply (IH _ _ eq_refl w2 s2 eq_refl Hw2). lia.
    + exact (rep_none _ E w2 s2 eq_refl Hw2).
Qed.

End Matcher.

Section Language.

Lemma match_here_sound (re : regex) (s g rest : str) :
  match_here re s = Some (g, rest) -> lang re s g rest.
Proof.
  revert s g rest. induction re as [|n re IH]; intros s g rest H.
  - simpl in H. inversion H; subst. simpl. auto.
  - destruct n as [c|cls|cls|cls]; simpl in H; simpl.
    + destruct s as [|x s]; [discriminate|].
      destruct (Ascii.eqb x c) eqn:E; [|discriminate].
      apply Ascii.eqb_eq in E; subst. exists s. auto.
    + destruct s as [|x s]; [discriminate|].
      destruct (cls x) eqn:E; [|discriminate].
      destruct (rep cls (match_here re) s) as [[w [g' r']]|] eqn:Er;
        [|discriminate].
      simpl in H. inversion H; subst.
      destruct (rep_sound _ _ _ _ _ Er) as [Hw [s' [-> Hk]]].
      exists (x :: w), s'. simpl. rewrite E.
      repeat split; auto; discriminate.
    + destruct (rep cls (match_here re) s) as [[w [g' r']]|] eqn:Er;
        [|discriminate].
      simpl in H. inversion H; subst.
      destruct (rep_sound _ _ _ _ _ Er) as [Hw [s' [-> Hk]]].
      exists w, s'. auto.
    + destruct s as [|x s]; [discriminate|].
      destruct (cls x) eqn:E; [|discriminate].
      destruct (rep cls (match_here re) s) as [[w [g' r']]|] eqn:Er;
        [|discriminate].
      inversion H; subst.
      destruct (rep_sound _ _ _ _ _ Er) as [Hw [s' [-> Hk]]].
      exists s', g'. simpl. rewrite E.
      repeat split; auto; discriminate.
Qed.

(** When the pattern has a text at the start of [s], the matcher finds a
    match: it fails only where the language is empty. *)
Lemma match_here_complete (re : regex) (s g rest : str) :
  lang re s g rest -> match_here re s <> None.
Proof.
  revert s g rest. induction re as [|n re IH]; intros s g rest H.
  - simpl. discriminate.
  - destruct n as [c|cls|cls|cls]; simpl in H; simpl.
    + destruct H as [s' [-> H]]. rewrite Ascii.eqb_refl. eauto.
    + destruct H as [w [s' [-> [Hne [Hw H]]]]].
      destruct w as [|x w]; [congruence|]. simpl in Hw.
      apply andb_true_iff in Hw as [Hx Hw]. simpl. rewrite Hx.
      destruct (rep cls (match_here re) (w ++ s')) eqn:E; [discriminate|].
      exfalso. exact (IH _ _ _ H (rep_none _ _ _ E w s' eq_refl Hw)).
    + destruct H as [w [s' [-> [Hw H]]]].
      destruct (rep cls (match_here re) (w ++ s')) eqn:E; [discriminate|].
      exfalso. exact (IH _ _ _ H (rep_none _ _ _ E w s' eq_refl Hw)).
    + destruct H as [s' [g' [-> [Hne [Hw H]]]]].
      destruct g as [|x w]; [congruence|]. simpl in Hw.
      apply andb_true_iff in Hw as [Hx Hw]. simpl. rewrite Hx.
      destruct (rep cls (match_here re) (w ++ s')) as [[? [? ?]]|] eqn:E;
        [discriminate|].
      exfalso. exact (IH _ _ _ H (rep_none _ _ _ E w s' eq_refl Hw)).
Qed.

Lemma match_here_none (re : regex) (s : str) :
  match_here re s = None <-> forall g rest, ~ lang re s g rest.
Proof.
  split.
  - intros H g rest L. exact (match_here_complete _ _ _ _ L H).
  - intros H. destruct (match_here re s) as [[g rest]|] eqn:E; [|reflexivity].
    exfalso. exact (H g rest (match_here_sound _ _ _ _ E)).
Qed.

(** The text after a match is a suffix of the input. *)
Lemma lang_suffix (re : regex) (s g rest : str) :
  lang re s g rest -> exists m, s = m ++ rest.
Proof.
  revert s g. induction re as [|n re IH]; intros s g H.
  - simpl in H. destruct H as [-> _]. exists []. reflexivity.
  - destruct n as [c|cls|cls|cls]; simpl in H.
    + destruct H as [s' [-> H]]. destruct (IH _ _ H) as [m ->].
      exists (c :: m). reflexivity.
    + destruct H as [w [s' [-> [_ [_ H]]]]]. destruct (IH _ _ H) as [m ->].
      exists (w ++ m). rewrite app_assoc. reflexivity.
    + destruct H as [w [s' [-> [_ H]]]]. destruct (IH _ _ H) as [m ->].
      exists (w ++ m). rewrite app_assoc. reflexivity.
    + destruct H as [s' [g' [-> [_ [_ H]]]]]. destruct (IH _ _ H) as [m ->].
      exists (g ++ m). rewrite app_assoc. reflexivity.
Qed.

(** [search] returns the match at the first position that has one. *)
Lemma search_some (re : regex) (s : str) (m : match_obj) :
  search re s = Some m ->
  exists t,
    s = m_before m ++ t /\
    match_here re t = Some (m_group1 m, m_after m) /\
    forall p1 p2, m_before m = p1 ++ p2 -> p2 <> [] ->
                  match_here re (p2 ++ t) = None.
Proof.
  revert m. induction s as [|c s IH]; intros m H; simpl in H.
  - destruct (match_here re []) as [[g rest]|] eqn:E; [|discriminate].
    inversion H; subst; simpl. exists []. repeat split; auto.
    intros p1 p2 Hp Hne. destruct p1, p2; simpl in Hp; congruence.
  - destruct (match_here re (c :: s)) as [[g rest]|] eqn:E.
    + inversion H; subst; simpl. exists (c :: s). repeat split; auto.
      intros p1 p2 Hp Hne. destruct p1, p2; simpl in Hp; congruence.
    + destruct (search re s) as [m'|] eqn:Es; [|discriminate].
      inversion H; subst; simpl.
      destruct (IH _ eq_refl) as [t [-> [Hm Hbefore]]].
      exists t. repeat split; auto.
      intros p1 p2 Hp Hne. destruct p1 as [|x p1]; simpl in Hp.
      * subst p2. exact E.
      * inversion Hp; subst. eapply Hbefore; eauto.
Qed.

Lemma search_none (re : regex) (s : str) :
  search re s = None <-> forall p t, s = p ++ t -> match_here re t = None.
Proof.
  induction s as [|c s IH]; simpl.
  - destruct (match_here re []) as [[g rest]|] eqn:E.
    + split; [discriminate|]. intros H. rewrite (H [] [] eq_refl) in E.
      discriminate.
    + split; [|reflexivity]. intros _ p t Hp.
      destruct p, t; simpl in Hp; try discriminate. exact E.
  - destruct (match_here re (c :: s)) as [[g rest]|] eqn:E.
    + split; [discriminate|]. intros H. rewrite (H [] _ eq_refl) in E.
      discriminate.
    + destruct (search re s) as [m|] eqn:Es.
      * split; [discriminate|]. intros H.
        destruct IH as [_ IH].
        assert (Hs : Some m = None); [|discriminate].
        apply IH. intros p t Hp. apply (H (c :: p) t).
        simpl. rewrite Hp. reflexivity.
      * split; [|reflexivity]. intros _ p t Hp.
        destruct p as [|x p]; simpl in Hp.
        -- subst t. exact E.
        -- inversion Hp; subst.
           destruct IH as [IH _]. exact (IH eq_refl p t eq_refl).
Qed.

(** The converse of [search_some]. *)
Lemma search_first (re : regex) (pre t g rest : str) :
  match_here re t = Some (g, rest) ->
  (forall p1 p2, pre = p1 ++ p2 -> p2 <> [] ->
                 match_here re (p2 ++ t) = None) ->
  search re (pre ++ t) = Some (MatchObj pre g rest).
Proof.
  intros Hm. induction pre as [|c pre IH]; intros Hbefore.
  - simpl. destruct t; simpl; rewrite Hm; reflexivity.
  - assert (E : match_here re (c :: pre ++ t) = None).
    { apply (Hbefore [] (c :: pre) eq_refl). discriminate. }
    simpl. rewrite E. rewrite IH; [reflexivity|].
    intros p1 p2 Hp Hne. apply (Hbefore (c :: p1) p2); [|exact Hne].
    simpl. rewrite Hp. reflexivity.
Qed.

End Language.

(** ** The shape of the four markers *)

Section Shapes.

Lemma lang_chars (l : str) (re : regex) (s g rest : str) :
  lang (chars l ++ re) s g rest <-> exists s', s = l ++ s' /\ lang re s' g rest.
Proof.
  revert s. induction l as [|c l IH]; intros s; simpl.
  - split; [intros H; exists s; auto | intros [s' [-> H]]; exact H].
  - split.
    + intros [s1 [-> H]]. apply IH in H as [s' [-> H]]. exists s'. auto.
    + intros [s' [-> H]]. exists (l ++ s'). split; [reflexivity|].
      apply IH. exists s'. auto.
Qed.

(** A run of characters of a class that ends at a character outside the
    class can be read in one way only. *)
Lemma span_unique (cls : ascii -> bool) (w1 w2 : str) (c1 c2 : ascii)
    (r1 r2 : str) :
  forallb cls w1 = true -> forallb cls w2 = true ->
  cls c1 = false -> cls c2 = false ->
  w1 ++ c1 :: r1 = w2 ++ c2 :: r2 -> w1 = w2 /\ c1 = c2 /\ r1 = r2.
Proof.
  revert w2. induction w1 as [|x w1 IH]; intros [|y w2] H1 H2 Hc1 Hc2 E;
    simpl in *; inversion E; subst.
  - auto.
  - apply andb_true_iff in H2 as [Hy _]. congruence.
  - apply andb_true_iff in H1 as [Hx _]. congruence.
  - apply andb_true_iff in H1 as [_ H1]. apply andb_true_iff in H2 as [_ H2].
    destruct (IH w2 H1 H2 Hc1 Hc2 H3) as [-> [-> ->]]. auto.
Qed.

(** A pattern whose language has one reading at [s] is matched with that
    reading. *)
Lemma match_here_unique (re : regex) (s g rest : str) :
  lang re s g rest ->
  (forall g' rest', lang re s g' rest' -> g' = g /\ rest' = rest) ->
  match_here re s = Some (g, rest).
Proof.
  intros L U. destruct (match_here re s) as [[g' rest']|] eqn:E.
  - destruct (U _ _ (match_here_sound _ _ _ _ E)) as [-> ->]. reflexivity.
  - exfalso. exact (match_here_complete _ _ _ _ L E).
Qed.

Lemma block_lang (s g rest : str) :
  lang block_re s g rest <->
  exists m, block_marker m /\ s = m ++ rest /\ g = [].
Proof.
  unfold block_re, block_marker. rewrite lang_chars. cbn [lang]. split.
  - intros [s' [-> [w [s1 [-> [Hne [Hw [s2 [-> [-> ->]]]]]]]]]].
    exists (block_lit ++ w ++ [dq]). split; [exists w; auto|].
    split; [|reflexivity]. rewrite <- !app_assoc. reflexivity.
  - intros [m [[ds [Hne [Hd ->]]] [-> ->]]].
    exists (ds ++ dq :: rest). split; [rewrite <- !app_assoc; reflexivity|].
    exists ds, (dq :: rest). repeat split; auto. exists rest. auto.
Qed.

Lemma block_marker_unique (m1 m2 r1 r2 : str) :
  block_marker m1 -> block_marker m2 -> m1 ++ r1 = m2 ++ r2 ->
  m1 = m2 /\ r1 = r2.
Proof.
  intros [d1 [_ [H1 ->]]] [d2 [_ [H2 ->]]] E.
  rewrite <- !app_assoc in E. apply app_inv_head in E. simpl in E.
  destruct (span_unique is_digit d1 d2 dq dq r1 r2 H1 H2 eq_refl eq_refl E)
    as [-> [_ ->]]. auto.
Qed.

(** The matcher on the block pattern: it succeeds exactly on a marker. *)
Lemma block_match (m rest : str) :
  block_marker m -> match_here block_re (m ++ rest) = Some ([], rest).
Proof.
  intros Hm. apply match_here_unique.
  - apply block_lang. exists m. auto.
  - intros g' rest' L. apply block_lang in L as [m' [Hm' [E ->]]].
    destruct (block_marker_unique _ _ _ _ Hm Hm' E) as [_ ->]. auto.
Qed.

Lemma block_match_inv (s g rest : str) :
  match_here block_re s = Some (g, rest) ->
  exists m, block_marker m /\ s = m ++ rest /\ g = [].
Proof. intros H. apply block_lang. apply match_here_sound. exact H. Qed.

(** A marker starts with [<] and has no other [<]. *)
Lemma block_marker_lt (m : str) :
  block_marker m -> exists m', m = "<"%char :: m' /\ ~ In "<"%char m'.
Proof.
  intros [ds [_ [Hd ->]]]. exists (tl block_lit ++ ds ++ [dq]).
  split; [reflexivity|]. intros H.
  apply in_app_or in H as [H|H].
  - vm_compute in H. intuition discriminate.
  - apply in_app_or in H as [H|H].
    + rewrite forallb_forall in Hd. apply Hd in H. discriminate.
    + destruct H as [H|[]]. discriminate.
Qed.

Lemma block_marker_length (m : str) : block_marker m -> 0 < length m.
Proof.
  intros H. destruct (block_marker_lt _ H) as [m' [-> _]]. simpl. lia.
Qed.

(** A match that starts before a [<] ends before it: it does not depend on
    the text from that [<] on. *)
Lemma block_match_local (x y : str) (g rest : str) :
  x <> [] -> match_here block_re (x ++ "<"%char :: y) = Some (g, rest) ->
  exists x', forall z, match_here block_re (x ++ z) = Some ([], x' ++ z).
Proof.
  intros Hx H. apply block_match_inv in H as [m [Hm [E _]]].
  destruct (block_marker_lt _ Hm) as [m' [Em Hlt]].
  apply app_eq_app in E as [l [[-> E]|[-> E]]].
  - exists l. intros z. rewrite <- app_assoc. apply block_match. exact Hm.
  - destruct l as [|c l].
    + exists []. intros z. rewrite app_nil_r in Hm.
      apply block_match. exact Hm.
    + exfalso. inversion E; subst c. destruct x as [|x0 x]; [congruence|].
      simpl in Em. inversion Em; subst. apply Hlt.
      apply in_or_app. right. left. reflexivity.
Qed.

End Shapes.

(** ** Counting the block-boundary markers *)

Section Counting.

Lemma take_drop_while (p : ascii -> bool) (s : str) :
  s = take_while p s ++ drop_while p s.
Proof.
  induction s as [|c s IH]; simpl; [reflexivity|].
  destruct (p c); simpl; [f_equal; exact IH | reflexivity].
Qed.

Lemma take_while_all (p : ascii -> bool) (s : str) :
  forallb p (take_while p s) = true.
Proof.
  induction s as [|c s IH]; simpl; [reflexivity|].
  destruct (p c) eqn:E; simpl; [rewrite E; exact IH | reflexivity].
Qed.

Lemma take_while_span (p : ascii -> bool) (w : str) (c : ascii) (r : str) :
  forallb p w = true -> p c = false ->
  take_while p (w ++ c :: r) = w /\ drop_while p (w ++ c :: r) = c :: r.
Proof.
  intros Hw Hc. induction w as [|x w IH]; simpl in *.
  - rewrite Hc. auto.
  - apply andb_true_iff in Hw as [Hx Hw]. rewrite Hx.
    destruct (IH Hw) as [-> ->]. auto.
Qed.

Lemma skipn_app_exact (l r : str) : skipn (length l) (l ++ r) = r.
Proof. induction l; simpl; auto. Qed.

Lemma marker_here_spec (s : str) :
  marker_here s = true <-> exists m rest, block_marker m /\ s = m ++ rest.
Proof.
  unfold marker_here. rewrite !andb_true_iff, !starts_with_spec. split.
  - intros [[t ->] [Hne [r Hr]]]. rewrite skipn_app_exact in Hne, Hr.
    exists (block_lit ++ take_while is_digit t ++ [dq]), r. split.
    + exists (take_while is_digit t). repeat split.
      * destruct (take_while is_digit t); [discriminate | discriminate].
      * apply take_while_all.
    + rewrite <- !app_assoc. f_equal. simpl in Hr. simpl. rewrite <- Hr.
      apply take_drop_while.
  - intros [m [rest [[ds [Hne [Hd ->]]] ->]]]. rewrite <- !app_assoc.
    split; [eexists; reflexivity|]. rewrite skipn_app_exact. simpl.
    destruct (take_while_span is_digit ds dq rest Hd eq_refl) as [-> ->].
    split; [destruct ds; [congruence | reflexivity] | exists rest; reflexivity].
Qed.

(** The matcher finds a marker exactly where one starts. *)
Lemma marker_here_match (s : str) :
  marker_here s = false <-> match_here block_re s = None.
Proof.
  split.
  - intros H. apply match_here_none. intros g rest L.
    apply block_lang in L as [m [Hm [E _]]].
    assert (T : marker_here s = true) by (apply marker_here_spec; eauto).
    congruence.
  - intros H. destruct (marker_here s) eqn:E; [|reflexivity].
    apply marker_here_spec in E as [m [rest [Hm ->]]].
    rewrite (block_match _ rest Hm) in H. discriminate.
Qed.

Lemma count_markers_skip (p t : str) :
  (forall p1 p2, p = p1 ++ p2 -> p2 <> [] -> marker_here (p2 ++ t) = false) ->
  count_markers (p ++ t) = count_markers t.
Proof.
  induction p as [|c p IH]; intros H; [reflexivity|].
  cbn [app count_markers].
  assert (E : marker_here (c :: p ++ t) = false).
  { apply (H [] (c :: p) eq_refl). discriminate. }
  rewrite E. simpl. apply IH. intros p1 p2 Hp Hne.
  apply (H (c :: p1) p2); [simpl; rewrite Hp; reflexivity | exact Hne].
Qed.

(** No marker starts at a character other than [<]. *)
Lemma marker_here_lt (c : ascii) (s : str) :
  c <> "<"%char -> marker_here (c :: s) = false.
Proof.
  intros Hc. destruct (marker_here (c :: s)) eqn:E; [|reflexivity].
  apply marker_here_spec in E as [m [rest [Hm E]]].
  destruct (block_marker_lt _ Hm) as [m' [-> _]]. simpl in E. congruence.
Qed.

(** Markers do not overlap: a marker counts once and hides no other. *)
Lemma count_markers_marker (m rest : str) :
  block_marker m -> count_markers (m ++ rest) = 1 + count_markers rest.
Proof.
  intros Hm. destruct (block_marker_lt _ Hm) as [m' [E Hlt]].
  assert (T : marker_here (m ++ rest) = true)
    by (apply marker_here_spec; eauto).
  rewrite E in *. cbn [app] in T. cbn [app count_markers]. rewrite T. f_equal.
  apply count_markers_skip. intros p1 p2 Hp Hne.
  destruct p2 as [|c p2]; [congruence|]. simpl. apply marker_here_lt.
  intros ->. apply Hlt. rewrite Hp. apply in_or_app. right. left. reflexivity.
Qed.

Lemma block_match_shorter (s g rest : str) :
  match_here block_re s = Some (g, rest) -> length rest < length s.
Proof.
  intros H. apply block_match_inv in H as [m [Hm [-> _]]].
  pose proof (block_marker_length _ Hm). rewrite length_app. lia.
Qed.

Lemma block_search_shorter (s : str) (mo : match_obj) :
  search block_re s = Some mo -> length (m_after mo) < length s.
Proof.
  intros H. apply search_some in H as [t [-> [H _]]].
  apply block_match_shorter in H. rewrite length_app. lia.
Qed.

(** [length s] rounds are enough for [split_loop]: more change nothing. *)
Lemma split_loop_fuel (n1 n2 : nat) (s : str) :
  length s <= n1 -> length s <= n2 ->
  split_loop n1 block_re s = split_loop n2 block_re s.
Proof.
  revert n2 s. induction n1 as [|n1 IH]; intros n2 s H1 H2.
  - destruct s; [|simpl in H1; lia]. destruct n2; reflexivity.
  - destruct n2 as [|n2].
    + destruct s; [|simpl in H2; lia]. reflexivity.
    + simpl. destruct (search block_re s) as [mo|] eqn:E; [|reflexivity].
      pose proof (block_search_shorter _ _ E). f_equal. apply IH; lia.
Qed.

(** [re.split] as the recursion that its loop computes. *)
Lemma split_eq (s : str) :
  split block_re s =
  match search block_re s with
  | None => [s]
  | Some mo => m_before mo :: split block_re (m_after mo)
  end.
Proof.
  unfold split. destruct s as [|c s]; [reflexivity|].
  cbn [length split_loop].
  destruct (search block_re (c :: s)) as [mo|] eqn:E; [|reflexivity].
  pose proof (block_search_shorter _ _ E) as L. simpl in L. f_equal.
  apply split_loop_fuel; lia.
Qed.

(** The split has one segment more than the text has markers. *)
Lemma split_length (s : str) :
  length (split block_re s) = 1 + count_markers s.
Proof.
  remember (length s) as n eqn:En. revert s En.
  induction n as [n IH] using lt_wf_ind. intros s En.
  rewrite split_eq. destruct (search block_re s) as [mo|] eqn:E.
  - pose proof (block_search_shorter _ _ E) as L.
    apply search_some in E as [t [Es [Hm Hb]]].
    cbn [length]. rewrite (IH (length (m_after mo)) ltac:(lia) _ eq_refl).
    f_equal.
    apply block_match_inv in Hm as [m [Hm [-> _]]]. rewrite Es.
    rewrite count_markers_skip, count_markers_marker by
      (auto; intros p1 p2 Hp Hne; apply marker_here_match; eauto).
    reflexivity.
  - simpl. f_equal. symmetry. rewrite <- (app_nil_r s).
    apply (count_markers_skip s []). intros p1 p2 Hp Hne. apply marker_here_match.
    rewrite search_none in E. apply (E p1). rewrite app_nil_r. exact Hp.
Qed.

End Counting.

(** ** The scripts as functions of the text *)

Section Scripts.

Lemma title_of_ret (block : str) : title_of block = Ret (title_field block).
Proof.
  unfold title_of, title_field.
  destruct (search title_re block); reflexivity.
Qed.

Lemma img_of_ret (block : str) : img_of block = Ret (img_field block).
Proof.
  unfold img_of, img_field.
  destruct (search img_re block); reflexivity.
Qed.

Lemma in_tuple_empty_hash (x : str) :
  in_tuple x [[]; lit "#"] = true <-> x = [] \/ x = lit "#".
Proof.
  unfold in_tuple. cbn [existsb]. rewrite orb_false_r, orb_true_iff.
  rewrite !str_eqb_eq. tauto.
Qed.

Lemma parse_link_of_ret (block : str) :
  exists l, Parse.link_of block = Ret l /\
            py_or l placeholder = link_field block.
Proof.
  unfold Parse.link_of, link_field, anchor_value.
  destruct (search link_re block) as [m|]; [|exists []; auto].
  cbn [is_match group1 bind option_map].
  destruct (in_tuple (strip (m_group1 m)) [[]; lit "#"]) eqn:E;
    [exists []; auto|].
  exists (strip (m_group1 m)). split; [reflexivity|].
  destruct (strip (m_group1 m)); [discriminate | reflexivity].
Qed.

Lemma build_link_of_ret (block : str) :
  Build.link_of block = Ret (link_field block).
Proof.
  unfold Build.link_of, link_field, anchor_value.
  destruct (search link_re block) as [m|]; [|reflexivity].
  cbn [is_match group1 bind option_map]. rewrite strip_idempotent.
  reflexivity.
Qed.

Lemma parse_item_ret (i : nat) (block : str) :
  Parse.item i block = Ret (item_at (i + 1) block).
Proof.
  unfold Parse.item. destruct (parse_link_of_ret block) as [l [El Hl]].
  rewrite title_of_ret, El, img_of_ret. cbn [bind]. rewrite Hl.
  reflexivity.
Qed.

Lemma build_item_ret (i : nat) (block : str) :
  Build.item i block = Ret (item_at (i + 1) block).
Proof.
  unfold Build.item. rewrite title_of_ret, build_link_of_ret, img_of_ret.
  reflexivity.
Qed.

(** A loop whose body never raises appends one item per block. *)
Lemma for_blocks_ret (body : nat -> str -> result PortfolioItem)
    (f : nat -> str -> PortfolioItem) (it : list (nat * str))
    (out : list PortfolioItem) :
  (forall i b, body i b = Ret (f i b)) ->
  for_blocks body it out = Ret (out ++ map (fun p => f (fst p) (snd p)) it).
Proof.
  intros H. revert out. induction it as [|[i b] it IH]; intros out; simpl.
  - rewrite app_nil_r. reflexivity.
  - rewrite H. simpl. rewrite IH, <- app_assoc. reflexivity.
Qed.

Lemma parse_main_ret (html : str) : Parse.main html = Ret (items_of html).
Proof.
  unfold Parse.main.
  rewrite (for_blocks_ret Parse.item (fun i b => item_at (i + 1) b)).
  - reflexivity.
  - exact parse_item_ret.
Qed.

Lemma build_extract_ret (html : str) :
  Build.extract html = Ret (items_of html).
Proof.
  unfold Build.extract.
  rewrite (for_blocks_ret Build.item (fun i b => item_at (i + 1) b)).
  - reflexivity.
  - exact build_item_ret.
Qed.

Lemma enumerate_length {A : Type} (l : list A) :
  length (enumerate l) = length l.
Proof.
  unfold enumerate. rewrite length_combine, length_seq. lia.
Qed.

Lemma combine_seq_nth {A : Type} (l : list A) (a k : nat) (x : A) :
  nth_error l k = Some x ->
  nth_error (combine (seq a (length l)) l) k = Some (a + k, x).
Proof.
  revert a k. induction l as [|y l IH]; intros a k H.
  - destruct k; discriminate.
  - destruct k as [|k]; simpl in *.
    + inversion H; subst. rewrite Nat.add_0_r. reflexivity.
    + rewrite (IH (S a) k H). f_equal. f_equal. lia.
Qed.

Lemma enumerate_nth {A : Type} (l : list A) (k : nat) (x : A) :
  nth_error l k = Some x -> nth_error (enumerate l) k = Some (k, x).
Proof. intros H. exact (combine_seq_nth l 0 k x H). Qed.

Lemma items_length (html : str) : length (items_of html) = count_markers html.
Proof.
  unfold items_of, blocks_of.
  rewrite length_map, enumerate_length, length_skipn, split_length. lia.
Qed.

Lemma combine_seq_index (l : list str) (a : nat) :
  map index (map (fun p => item_at (fst p + 1) (snd p))
                 (combine (seq a (length l)) l)) = seq (a + 1) (length l).
Proof.
  revert a. induction l as [|b l IH]; intros a; simpl; [reflexivity|].
  f_equal. rewrite IH. reflexivity.
Qed.

Lemma items_index (html : str) :
  map index (items_of html) = seq 1 (count_markers html).
Proof.
  rewrite <- items_length. unfold items_of, enumerate.
  rewrite combine_seq_index, length_map, length_combine, length_seq.
  f_equal. lia.
Qed.

Lemma items_nth (html : str) (k : nat) (b : str) :
  nth_error (blocks_of html) k = Some b ->
  nth_error (items_of html) k = Some (item_at (k + 1) b).
Proof.
  intros H. unfold items_of.
  rewrite nth_error_map, (enumerate_nth _ _ _ H). reflexivity.
Qed.

End Scripts.

(** ** The title, anchor and image markers *)

Ltac norm_app := repeat first [rewrite <- app_assoc | progress cbn [app]].

Section Markers.

Lemma match_here_chars (l : str) (re : regex) (s : str) :
  match_here (chars l ++ re) (l ++ s) = match_here re s.
Proof.
  induction l as [|c l IH]; simpl; [reflexivity|].
  rewrite Ascii.eqb_refl. exact IH.
Qed.

Lemma title_lang (s g rest : str) :
  lang title_re s g rest <-> exists m, title_marker m g /\ s = m ++ rest.
Proof.
  unfold title_re, title_marker. rewrite lang_chars. cbn [lang app]. split.
  - intros [s0 [-> [ds [s1 [-> [Hds [Hd [s2 [-> L]]]]]]]]].
    destruct L as [at_ [s3 [-> [Hat [s4 [-> L]]]]]].
    destruct L as [s5 [g' [-> [Hg [Hi L]]]]].
    apply (lang_chars (lit "</span>") []) in L as [s6 [-> [-> _]]].
    eexists. split; [exists ds, at_; repeat split; eauto|].
    norm_app. reflexivity.
  - intros [m [[ds [at_ [Hds [Hd [Hat [Hg [Hi ->]]]]]]] ->]].
    exists (ds ++ dq :: at_ ++ ">"%char :: g ++ lit "</span>" ++ rest).
    split; [norm_app; reflexivity|].
    exists ds, (dq :: at_ ++ ">"%char :: g ++ lit "</span>" ++ rest).
    repeat split; auto.
    exists (at_ ++ ">"%char :: g ++ lit "</span>" ++ rest).
    split; [reflexivity|].
    exists at_, (">"%char :: g ++ lit "</span>" ++ rest).
    repeat split; auto.
    exists (g ++ lit "</span>" ++ rest). split; [reflexivity|].
    exists (lit "</span>" ++ rest), []. repeat split; auto.
    apply (lang_chars (lit "</span>") []). exists rest. simpl. auto.
Qed.

Lemma anchor_lang (s g rest : str) :
  lang link_re s g rest <-> exists m, anchor_marker m g /\ s = m ++ rest.
Proof.
  unfold link_re, anchor_marker. rewrite lang_chars. cbn [lang app]. split.
  - intros [s0 [-> [ws [s1 [-> [Hws [Hw L]]]]]]].
    apply lang_chars in L as [s2 [-> L]]. cbn [lang] in L.
    destruct L as [s3 [g' [-> [Hg [Hu [s4 [-> [-> _]]]]]]]].
    eexists. split; [exists ws; repeat split; eauto|].
    norm_app. reflexivity.
  - intros [m [[ws [Hws [Hw [Hg [Hu ->]]]]] ->]].
    exists (ws ++ sq "href='" ++ g ++ dq :: rest).
    split; [norm_app; reflexivity|].
    exists ws, (sq "href='" ++ g ++ dq :: rest).
    repeat split; auto. apply lang_chars.
    exists (g ++ dq :: rest). split; [reflexivity|]. cbn [lang].
    exists (dq :: rest), []. repeat split; auto. exists rest. auto.
Qed.

Lemma image_lang (s g rest : str) :
  lang img_re s g rest <-> exists m, image_marker m g /\ s = m ++ rest.
Proof.
  unfold img_re, image_marker. rewrite lang_chars. cbn [lang app]. split.
  - intros [s0 [-> [a [s1 [-> [Ha [Hgt L]]]]]]].
    apply lang_chars in L as [s2 [-> L]]. cbn [lang] in L.
    destruct L as [s3 [g' [-> [Hg [Hu [s4 [-> [-> _]]]]]]]].
    eexists. split; [exists a; repeat split; eauto|].
    norm_app. reflexivity.
  - intros [m [[a [Ha [Hgt [Hg [Hu ->]]]]] ->]].
    exists (a ++ sq "src='" ++ g ++ dq :: rest).
    split; [norm_app; reflexivity|].
    exists a, (sq "src='" ++ g ++ dq :: rest).
    repeat split; auto. apply lang_chars.
    exists (g ++ dq :: rest). split; [reflexivity|]. cbn [lang].
    exists (dq :: rest), []. repeat split; auto. exists rest. auto.
Qed.


Lemma anchor_marker_unique (m1 g1 r1 m2 g2 r2 : str) :
  anchor_marker m1 g1 -> anchor_marker m2 g2 -> m1 ++ r1 = m2 ++ r2 ->
  g1 = g2 /\ r1 = r2.
Proof.
  intros [w1 [_ [Hw1 [_ [Hg1 ->]]]]] [w2 [_ [Hw2 [_ [Hg2 ->]]]]] E.
  revert E. norm_app. intros E. apply app_inv_head in E.
  change (sq "href='") with ("h"%char :: sq "ref='") in E.
  cbn [app] in E.
  destruct (span_unique is_space w1 w2 "h" "h" _ _ Hw1 Hw2 eq_refl eq_refl E)
    as [_ [_ E1]].
  apply app_inv_head in E1.
  destruct (span_unique (not_char dq) g1 g2 dq dq _ _ Hg1 Hg2
              eq_refl eq_refl E1) as [-> [_ ->]].
  auto.
Qed.


Lemma anchor_match (m g rest : str) :
  anchor_marker m g -> match_here link_re (m ++ rest) = Some (g, rest).
Proof.
  intros Hm. apply match_here_unique.
  - apply anchor_lang. exists m. auto.
  - intros g' rest' L. apply anchor_lang in L as [m' [Hm' E]].
    destruct (anchor_marker_unique _ _ _ _ _ _ Hm Hm' E) as [-> ->]. auto.
Qed.

End Markers.

(** ** First and absent markers, by the matcher *)

Section Occurs.

Variable re : regex.
Variable M : str -> str -> Prop.
Hypothesis shape :
  forall s g rest, lang re s g rest <-> exists m, M m g /\ s = m ++ rest.

Lemma starts_match (s : str) : match_here re s = None <-> ~ starts M s.
Proof.
  rewrite match_here_none. unfold starts. split.
  - intros H [m [g [rest [Hm E]]]]. apply (H g rest). apply shape. eauto.
  - intros H g rest L. apply shape in L as [m [Hm E]]. apply H. eauto.
Qed.

Lemma absent_search (block : str) :
  absent M block <-> search re block = None.
Proof.
  rewrite search_none. unfold absent. split.
  - intros H p t E. apply starts_match. eauto.
  - intros H p t E. apply starts_match. eauto.
Qed.

Lemma none_inside_search (pre t g rest : str) :
  none_inside M pre t -> match_here re t = Some (g, rest) ->
  search re (pre ++ t) = Some (MatchObj pre g rest).
Proof.
  intros H Hm. apply search_first; [exact Hm|].
  intros p1 p2 E Hne. apply starts_match. eauto.
Qed.

Lemma none_inside_b_ok (pre t : str) :
  none_inside_b re pre t = true <-> none_inside M pre t.
Proof.
  unfold none_inside. induction pre as [|c pre IH]; cbn [none_inside_b].
  - split; [|reflexivity]. intros _ p1 p2 E Hne.
    destruct p1, p2; simpl in E; congruence.
  - rewrite andb_true_iff, negb_true_iff, IH. unfold matches. split.
    + intros [H1 H2] p1 p2 E Hne. destruct p1 as [|x p1]; simpl in E.
      * subst p2. apply starts_match.
        destruct (match_here re ((c :: pre) ++ t)); [discriminate|reflexivity].
      * inversion E; subst. eauto.
    + intros H. split.
      * assert (N : ~ starts M ((c :: pre) ++ t)).
        { apply (H [] (c :: pre) eq_refl). discriminate. }
        apply starts_match in N. rewrite N. reflexivity.
      * intros p1 p2 E Hne. apply (H (c :: p1) p2); [|exact Hne].
        simpl. rewrite E. reflexivity.
Qed.

Lemma absent_b_ok (block : str) : absent_b re block = true <-> absent M block.
Proof.
  rewrite absent_search. unfold absent_b.
  destruct (search re block); split; congruence.
Qed.

End Occurs.

(** ** The split of a text that continues after a marker *)

Section SplitApp.

Lemma block_search_app_none (a m b : str) :
  block_marker m -> search block_re a = None ->
  search block_re (a ++ m ++ b) = Some (MatchObj a [] b).
Proof.
  intros Hm Ha. apply search_first; [apply block_match; exact Hm|].
  intros p1 p2 E Hne.
  destruct (match_here block_re (p2 ++ m ++ b)) as [[g rest]|] eqn:Em;
    [|reflexivity].
  exfalso. destruct (block_marker_lt _ Hm) as [m' [-> _]]. cbn [app] in Em.
  destruct (block_match_local _ _ _ _ Hne Em) as [x' Hz].
  specialize (Hz []). rewrite search_none in Ha.
  rewrite (Ha p1 (p2 ++ [])) in Hz; [discriminate|].
  rewrite app_nil_r. exact E.
Qed.

Lemma block_search_app_some (a m b : str) (mo : match_obj) :
  block_marker m -> search block_re a = Some mo ->
  search block_re (a ++ m ++ b) =
  Some (MatchObj (m_before mo) (m_group1 mo) (m_after mo ++ m ++ b)).
Proof.
  intros Hm Ha. apply search_some in Ha as [t [-> [Ht Hb]]].
  apply block_match_inv in Ht as [m1 [Hm1 [-> ->]]].
  rewrite <- !app_assoc. apply search_first; [apply block_match; exact Hm1|].
  intros p1 p2 E Hne.
  destruct (match_here block_re (p2 ++ m1 ++ m_after mo ++ m ++ b))
    as [[g rest]|] eqn:Em; [|reflexivity].
  exfalso. destruct (block_marker_lt _ Hm1) as [m1' [E1 _]].
  rewrite E1 in Em. cbn [app] in Em.
  destruct (block_match_local _ _ _ _ Hne Em) as [x' Hz].
  specialize (Hz (m1 ++ m_after mo)). rewrite (Hb p1 p2 E Hne) in Hz.
  discriminate.
Qed.

(** The segments of [a ++ m ++ b], for a marker [m], are those of [a]
    followed by those of [b]: what follows a marker changes no earlier
    segment. *)
Lemma split_app (a m b : str) :
  block_marker m ->
  split block_re (a ++ m ++ b) = split block_re a ++ split block_re b.
Proof.
  intros Hm. remember (length a) as n eqn:En. revert a En.
  induction n as [n IH] using lt_wf_ind. intros a En.
  rewrite (split_eq (a ++ m ++ b)), (split_eq a).
  destruct (search block_re a) as [mo|] eqn:E.
  - rewrite (block_search_app_some _ _ b _ Hm E). cbn [m_before m_after app].
    f_equal. pose proof (block_search_shorter _ _ E) as L.
    apply (IH (length (m_after mo))); [lia | reflexivity].
  - rewrite (block_search_app_none _ _ b Hm E). reflexivity.
Qed.

Lemma split_nonempty (s : str) : split block_re s <> [].
Proof.
  intros H. pose proof (split_length s) as L. rewrite H in L. simpl in L. lia.
Qed.

Lemma blocks_app (a m b : str) :
  block_marker m -> blocks_of (a ++ m ++ b) = blocks_of a ++ split block_re b.
Proof.
  intros Hm. unfold blocks_of. rewrite (split_app _ _ _ Hm).
  pose proof (split_nonempty a). destruct (split block_re a); [congruence|].
  reflexivity.
Qed.

Lemma combine_seq_app (x y : list str) (k : nat) :
  combine (seq k (length (x ++ y))) (x ++ y) =
  combine (seq k (length x)) x ++ combine (seq (k + length x) (length y)) y.
Proof.
  revert k. induction x as [|b x IH]; intros k; simpl.
  - rewrite Nat.add_0_r. reflexivity.
  - rewrite IH. replace (k + S (length x)) with (S k + length x) by lia.
    reflexivity.
Qed.

(** The items of the blocks before a marker are the items of the text
    before that marker. *)
Lemma items_app (a m b : str) :
  block_marker m ->
  firstn (length (items_of a)) (items_of (a ++ m ++ b)) = items_of a.
Proof.
  intros Hm. unfold items_of, enumerate. rewrite (blocks_app _ _ _ Hm).
  rewrite combine_seq_app, map_app, firstn_app, Nat.sub_diag, firstn_all.
  simpl. apply app_nil_r.
Qed.

End SplitApp.

(** ** The image pattern on a closed tag

    [[^>]+] is greedy: among the [src] attributes before the first [>] the
    matcher takes the last one that has a value.  When the tag has no
    further [src=] before its [>], that is the only one. *)

Section ImageTag.

Lemma not_char_all (c : ascii) (l : str) :
  forallb (not_char c) l = true <-> ~ In c l.
Proof.
  induction l as [|x l IH]; simpl; [tauto|].
  rewrite andb_true_iff, IH. unfold not_char. rewrite negb_true_iff.
  split.
  - intros [H1 H2] [H|H]; [|tauto]. subst. rewrite Ascii.eqb_refl in H1.
    discriminate.
  - intros H. split; [|tauto].
    destruct (Ascii.eqb x c) eqn:E; [|reflexivity].
    apply Ascii.eqb_eq in E. tauto.
Qed.

Lemma src_lang (s g rest : str) :
  lang src_re s g rest <->
  g <> [] /\ forallb (not_char dq) g = true /\ s = sq "src='" ++ g ++ dq :: rest.
Proof.
  unfold src_re. rewrite lang_chars. cbn [lang]. split.
  - intros [s0 [-> [s1 [g' [-> [Hg [Hu [s2 [-> [-> _]]]]]]]]]]. auto.
  - intros [Hg [Hu ->]]. exists (g ++ dq :: rest). split; [reflexivity|].
    exists (dq :: rest), []. repeat split; auto. exists rest. auto.
Qed.

Lemma src_match (url r : str) :
  url <> [] -> forallb (not_char dq) url = true ->
  match_here src_re (sq "src='" ++ url ++ dq :: r) = Some (url, r).
Proof.
  intros Hne Hu. apply match_here_unique.
  - apply src_lang. auto.
  - intros g' rest' L. apply src_lang in L as [_ [Hg' E]].
    apply app_inv_head in E.
    destruct (span_unique (not_char dq) url g' dq dq _ _ Hu Hg'
                eq_refl eq_refl E) as [-> [_ ->]]. auto.
Qed.

(** A text without [>] in front of a [>] contains every prefix of the whole
    that has no [>]. *)
Lemma prefix_before_gt (y post p q : str) :
  y ++ ">"%char :: post = p ++ q -> ~ In ">"%char p -> exists y', y = p ++ y'.
Proof.
  intros E Hp. apply app_eq_app in E as [l [[-> E]|[-> E]]].
  - exists l. reflexivity.
  - destruct l as [|c l].
    + exists []. rewrite !app_nil_r. reflexivity.
    + exfalso. simpl in E. inversion E; subst. apply Hp.
      apply in_or_app. right. left. reflexivity.
Qed.

Lemma app_same_length (x1 y1 x2 y2 : str) :
  x1 ++ y1 = x2 ++ y2 -> length x1 = length x2 -> x1 = x2 /\ y1 = y2.
Proof.
  revert x2. induction x1 as [|c x1 IH]; intros [|d x2] E L;
    simpl in *; try discriminate; auto.
  inversion E; subst. destruct (IH x2 H1) as [-> ->]; [lia | auto].
Qed.

Lemma image_match_closed (a url b post : str) :
  a <> [] -> forallb (not_char ">") a = true ->
  url <> [] -> forallb (not_char dq) url = true ->
  forallb (not_char ">") url = true -> forallb (not_char ">") b = true ->
  contains (sq "src='") (sq "rc='" ++ url ++ dq :: b) = false ->
  match_here img_re
    (lit "<img" ++ a ++ sq "src='" ++ url ++ dq :: b ++ ">"%char :: post)
  = Some (url, b ++ ">"%char :: post).
Proof.
  intros Ha Hgt Hne Hu Hugt Hbgt Hsrc.
  unfold img_re. rewrite match_here_chars.
  change ([Plus (not_char ">")] ++ chars (sq "src='")
            ++ [Group (not_char dq); Chr dq])
    with (Plus (not_char ">") :: src_re).
  destruct a as [|x a2]; [congruence|]. cbn [forallb] in Hgt.
  apply andb_true_iff in Hgt as [Hx Hgt]. cbn [app match_here]. rewrite Hx.
  set (X := sq "src='" ++ url ++ dq :: b ++ ">"%char :: post).
  pose proof (src_match url (b ++ ">"%char :: post) Hne Hu) as HK.
  fold X in HK.
  destruct (rep (not_char ">") (match_here src_re) (a2 ++ X))
    as [[w [g rest]]|] eqn:Er.
  - cbn [option_map snd].
    destruct (rep_sound _ _ _ _ _ Er) as [Hw [s2 [Es Hk]]].
    pose proof (rep_greedy _ _ _ _ _ Er a2 X eq_refl Hgt) as Hgreedy.
    destruct (Nat.lt_trichotomy (length w) (length a2)) as [Hl|[Hl|Hl]].
    + rewrite (Hgreedy Hl) in HK. discriminate.
    + symmetry in Es. destruct (app_same_length _ _ _ _ Es Hl) as [-> ->].
      rewrite HK in Hk. inversion Hk; subst. reflexivity.
    + exfalso. apply app_eq_app in Es as [l [[-> E]|[-> E]]].
      * destruct l as [|c l]; [rewrite app_nil_r in Hl; lia|].
        rewrite length_app in Hl. simpl in Hl. lia.
      * destruct l as [|c l]; [rewrite app_nil_r in Hl; lia|].
        apply match_here_sound, src_lang in Hk as [_ [_ ->]].
        rewrite forallb_app in Hw. apply andb_true_iff in Hw as [_ Hl2].
        assert (P : ~ In ">"%char ((c :: l) ++ sq "src='")).
        { intros H. apply in_app_or in H as [H|H].
          - apply not_char_all in Hl2. tauto.
          - vm_compute in H. intuition discriminate. }
        assert (EX : (sq "src='" ++ url ++ dq :: b) ++ ">"%char :: post
                     = ((c :: l) ++ sq "src='") ++ g ++ dq :: rest).
        { unfold X in E. rewrite <- !app_assoc. cbn [app].
          cbn [app] in E. rewrite <- E. norm_app. reflexivity. }
        destruct (prefix_before_gt _ _ _ _ EX P) as [y' Ey].
        change (sq "src='") with ("s"%char :: sq "rc='") in Ey at 1.
        cbn [app] in Ey. injection Ey as Ec Et.
        assert (C : contains (sq "src='") (sq "rc='" ++ url ++ dq :: b) = true).
        { apply contains_spec. exists l, y'. rewrite (app_assoc l), <- Et.
          reflexivity. }
        congruence.
  - pose proof (rep_none _ _ _ Er a2 X eq_refl Hgt) as N.
    rewrite N in HK. discriminate.
Qed.

End ImageTag.

(** * The claims of the specification *)

(** ** Number and order of the items *)

(** C1: a text with [N] block-boundary markers yields exactly [N] items,
    from both scripts, with the indices 1..N in the order of the split: the
    item at position [k] is the one computed from the block at position [k]
    and has the index [k + 1].  With no marker the result is empty. *)
Theorem extract_count_and_indices (html : str) (N : nat) :
  count_markers html = N ->
  exists out,
    Parse.main html = Ret out /\ Build.extract html = Ret out /\
    length out = N /\ map index out = seq 1 N /\
    (forall k b, nth_error (blocks_of html) k = Some b ->
       exists it, nth_error out k = Some it /\ index it = k + 1 /\
                  Parse.item k b = Ret it) /\
    (N = 0 -> out = []).
Proof.
  intros <-. exists (items_of html).
  split; [apply parse_main_ret|]. split; [apply build_extract_ret|].
  split; [apply items_length|]. split; [apply items_index|]. split.
  - intros k b H. exists (item_at (k + 1) b).
    split; [apply items_nth; exact H|].
    split; [reflexivity | apply parse_item_ret].
  - intros H. apply length_zero_iff_nil. rewrite items_length. exact H.
Qed.

Lemma extract_count_and_indices_witness :
  count_markers two_blocks = 2 /\
  exists out,
    Parse.main two_blocks = Ret out /\ Build.extract two_blocks = Ret out /\
    length out = 2 /\ map index out = seq 1 2 /\
    (forall k b, nth_error (blocks_of two_blocks) k = Some b ->
       exists it, nth_error out k = Some it /\ index it = k + 1 /\
                  Parse.item k b = Ret it) /\
    (2 = 0 -> out = []).
Proof.
  split; [vm_compute; reflexivity|].
  apply (extract_count_and_indices two_blocks 2). vm_compute. reflexivity.
Defined.

(** ** Determinism *)

Section HeapRuns.

Import Heap.

(** A loop whose body never raises appends its items to the object [out]
    and leaves every other object, the free address and the global as they
    are. *)
Lemma for_blocks_in_ret (body : nat -> str -> result PortfolioItem)
    (f : nat -> str -> PortfolioItem) (it : list (nat * str)) (out : addr)
    (h : heap) :
  (forall i b, body i b = Ret (f i b)) ->
  exists h',
    for_blocks_in body it out h = Ret h' /\
    next h' = next h /\ module_HTML h' = module_HTML h /\
    lists h' out = lists h out ++ map (fun p => f (fst p) (snd p)) it /\
    forall a, a <> out -> lists h' a = lists h a.
Proof.
  intros Hb. revert h. induction it as [|[i b] it IH]; intros h.
  - exists h. cbn. rewrite app_nil_r. auto.
  - cbn [for_blocks_in]. rewrite Hb. cbn [bind].
    destruct (IH (append out (f i b) h)) as [h' [E [Hn [Hg [Ho Hf]]]]].
    exists h'. split; [exact E|]. split; [exact Hn|]. split; [exact Hg|].
    split.
    + rewrite Ho. cbn [append lists map fst snd].
      rewrite Nat.eqb_refl, <- app_assoc. reflexivity.
    + intros a Ha. rewrite (Hf a Ha). cbn [append lists].
      destruct (a =? out) eqn:Ea; [|reflexivity].
      apply Nat.eqb_eq in Ea. congruence.
Qed.

(** One call in a heap [h]: the list is a new object at the free address of
    [h], it holds the items of the text, and nothing else changes. *)
Lemma parse_main_in (html : str) (h : heap) :
  exists h',
    parse_main html h = Ret (next h, h') /\
    next h' = S (next h) /\ module_HTML h' = module_HTML h /\
    lists h' (next h) = items_of html /\
    forall a, a <> next h -> lists h' a = lists h a.
Proof.
  unfold parse_main. cbn [new_list].
  destruct (for_blocks_in_ret Parse.item (fun i b => item_at (i + 1) b)
              (enumerate (skipn 1 (split block_re html))) (next h)
              {| module_HTML := module_HTML h; next := S (next h);
                 lists := fun a => if a =? next h then [] else lists h a |}
              parse_item_ret) as [h' [E [Hn [Hg [Ho Hf]]]]].
  exists h'. rewrite E. cbn [bind]. split; [reflexivity|].
  split; [exact Hn|]. split; [exact Hg|]. split.
  - rewrite Ho. cbn [lists]. rewrite Nat.eqb_refl. reflexivity.
  - intros a Ha. rewrite (Hf a Ha). cbn [lists].
    destruct (a =? next h) eqn:Ea; [|reflexivity].
    apply Nat.eqb_eq in Ea. congruence.
Qed.

Lemma build_extract_in (h : heap) :
  exists h',
    build_extract h = Ret (next h, h') /\
    next h' = S (next h) /\ module_HTML h' = module_HTML h /\
    lists h' (next h) = items_of (module_HTML h) /\
    forall a, a <> next h -> lists h' a = lists h a.
Proof.
  unfold build_extract. cbn [new_list module_HTML].
  destruct (for_blocks_in_ret Build.item (fun i b => item_at (i + 1) b)
              (enumerate (skipn 1 (split block_re (module_HTML h)))) (next h)
              {| module_HTML := module_HTML h; next := S (next h);
                 lists := fun a => if a =? next h then [] else lists h a |}
              build_item_ret) as [h' [E [Hn [Hg [Ho Hf]]]]].
  exists h'. rewrite E. cbn [bind]. split; [reflexivity|].
  split; [exact Hn|]. split; [exact Hg|]. split.
  - rewrite Ho. cbn [lists]. rewrite Nat.eqb_refl. reflexivity.
  - intros a Ha. rewrite (Hf a Ha). cbn [lists].
    destruct (a =? next h) eqn:Ea; [|reflexivity].
    apply Nat.eqb_eq in Ea. congruence.
Qed.

End HeapRuns.

(** C9: two calls of the extraction on the same text, the second in the heap
    that the first leaves, yield identical sequences of items: each call
    makes a list object of its own ([out = []]), the second call changes
    neither the list of the first nor any object that was there before, and
    after both calls the two lists are equal, so of the same length and with
    equal index, title, image and link at every position.  The same holds of
    [build_portfolio_list.py], whose calls read the global [HTML] and leave
    it as it is. *)
Theorem extraction_repeatable (html : str) (h : Heap.heap) :
  (exists out1 h1 out2 h2,
      Heap.parse_main html h = Ret (out1, h1) /\
      Heap.parse_main html h1 = Ret (out2, h2) /\
      out1 <> out2 /\
      Heap.lists h2 out1 = Heap.lists h1 out1 /\
      Heap.lists h2 out2 = Heap.lists h2 out1 /\
      Parse.main html = Ret (Heap.lists h2 out2) /\
      forall a, a < Heap.next h -> Heap.lists h2 a = Heap.lists h a) /\
  (exists out1 h1 out2 h2,
      Heap.build_extract h = Ret (out1, h1) /\
      Heap.build_extract h1 = Ret (out2, h2) /\
      out1 <> out2 /\
      Heap.module_HTML h2 = Heap.module_HTML h /\
      Heap.lists h2 out1 = Heap.lists h1 out1 /\
      Heap.lists h2 out2 = Heap.lists h2 out1 /\
      Build.extract (Heap.module_HTML h) = Ret (Heap.lists h2 out2) /\
      forall a, a < Heap.next h -> Heap.lists h2 a = Heap.lists h a).
Proof.
  split.
  - destruct (parse_main_in html h) as [h1 [E1 [N1 [_ [L1 F1]]]]].
    destruct (parse_main_in html h1) as [h2 [E2 [N2 [_ [L2 F2]]]]].
    exists (Heap.next h), h1, (Heap.next h1), h2.
    split; [exact E1|]. split; [exact E2|].
    assert (D : Heap.next h <> Heap.next h1) by lia.
    split; [exact D|]. split; [apply F2; exact D|].
    split; [rewrite L2, (F2 _ D), L1; reflexivity|].
    split; [rewrite L2; apply parse_main_ret|].
    intros a Ha. rewrite F2, F1 by lia. reflexivity.
  - destruct (build_extract_in h) as [h1 [E1 [N1 [G1 [L1 F1]]]]].
    destruct (build_extract_in h1) as [h2 [E2 [N2 [G2 [L2 F2]]]]].
    exists (Heap.next h), h1, (Heap.next h1), h2.
    split; [exact E1|]. split; [exact E2|].
    assert (D : Heap.next h <> Heap.next h1) by lia.
    split; [exact D|]. split; [congruence|]. split; [apply F2; exact D|].
    split; [rewrite L2, (F2 _ D), L1, G1; reflexivity|].
    split; [rewrite L2, G1; apply build_extract_ret|].
    intros a Ha. rewrite F2, F1 by lia. reflexivity.
Qed.

(** ** The two scripts against each other *)

(** C8, as stated, fails: no text that passes the guard has a block to which
    the two scripts give different links. *)
Lemma variants_links_never_differ :
  ~ exists html k b itp itb,
      Build.guard html = false /\ nth_error (blocks_of html) k = Some b /\
      Parse.item k b = Ret itp /\ Build.item k b = Ret itb /\
      link itp <> link itb.
Proof.
  intros [html [k [b [itp [itb [_ [_ [Hp [Hb Hne]]]]]]]]].
  rewrite parse_item_ret in Hp. rewrite build_item_ret in Hb.
  inversion Hp; inversion Hb; subst. apply Hne. reflexivity.
Qed.

(** C8, amended: the two scripts compute the same item, and so the same
    link, for every block, and the same list for every text; they differ in
    the guard alone: there is a text that [build_portfolio_list.py] refuses
    and from which [parse_portfolio_html.py] extracts an item. *)
Theorem variants_agree_on_links :
  (forall i block, exists it,
      Parse.item i block = Ret it /\ Build.item i block = Ret it) /\
  (forall html, Parse.main html = Build.extract html) /\
  (exists html out,
      Parse.main html = Ret out /\ out <> [] /\
      Build.main html = Ret (Build.Refused Build.diagnostic)).
Proof.
  split; [|split].
  - intros i block. exists (item_at (i + 1) block).
    split; [apply parse_item_ret | apply build_item_ret].
  - intros html. rewrite parse_main_ret, build_extract_ret. reflexivity.
  - exists one_block. eexists. split; [vm_compute; reflexivity|].
    split; [discriminate | vm_compute; reflexivity].
Qed.

(** ** The guard of [build_portfolio_list.py] *)



(** ** The link field *)

(** C2, as stated, fails on the block [<a href='(no link)'>]: the captured
    anchor value is present, not empty after trimming and not [#], and the
    link field is the placeholder all the same, because the value is the
    text of the placeholder. *)
Lemma link_placeholder_counterexample :
  let block := sq "<a href='(no link)'>" in
  exists it,
    Parse.item 0 block = Ret it /\ Build.item 0 block = Ret it /\
    ~ (link it = placeholder <->
       (anchor_value block = None \/
        exists v, anchor_value block = Some v /\
                  (strip v = [] \/ strip v = lit "#"))).
Proof.
  cbv zeta. eexists. split; [vm_compute; reflexivity|].
  split; [vm_compute; reflexivity|].
  intros [H _]. destruct (H eq_refl) as [E|[v [E [F|F]]]];
    vm_compute in E; inversion E; subst; vm_compute in F; discriminate.
Qed.

Lemma normalized_placeholder (v : str) :
  normalized v = placeholder <-> v = [] \/ v = lit "#" \/ v = placeholder.
Proof.
  unfold normalized.
  destruct (in_tuple v [[]; lit "#"]) eqn:E.
  - apply in_tuple_empty_hash in E. tauto.
  - split; [tauto|]. intros [H|[H|H]]; [| |exact H];
      subst; vm_compute in E; discriminate.
Qed.

(** C2, amended: in both scripts the link field is the placeholder exactly
    when the captured anchor value is absent or is, after trimming, empty,
    [#] or the text of the placeholder itself; every other captured value is
    in the item trimmed and otherwise unchanged. *)
Theorem link_normalization (i : nat) (block : str) :
  exists it,
    Parse.item i block = Ret it /\ Build.item i block = Ret it /\
    (link it = placeholder <->
     (anchor_value block = None \/
      exists v, anchor_value block = Some v /\
                (strip v = [] \/ strip v = lit "#" \/ strip v = placeholder)))
    /\
    (forall v, anchor_value block = Some v ->
               strip v <> [] -> strip v <> lit "#" -> link it = strip v).
Proof.
  exists (item_at (i + 1) block).
  split; [apply parse_item_ret|]. split; [apply build_item_ret|].
  cbn [link item_at]. unfold link_field.
  destruct (anchor_value block) as [v|].
  - fold (normalized (strip v)). split.
    + rewrite normalized_placeholder. split.
      * intros H. right. exists v. auto.
      * intros [H|[v' [E H]]]; [discriminate|]. inversion E; subst. exact H.
    + intros v' E H1 H2. inversion E; subst. unfold normalized.
      destruct (in_tuple (strip v') [[]; lit "#"]) eqn:T; [|reflexivity].
      apply in_tuple_empty_hash in T. tauto.
  - split; [split; auto | discriminate].
Qed.

Lemma link_normalization_witness :
  exists it,
    Parse.item 0 (sq "<a href=' http://x/a '>") = Ret it /\
    Build.item 0 (sq "<a href=' http://x/a '>") = Ret it /\
    link it = lit "http://x/a".
Proof.
  destruct (link_normalization 0 (sq "<a href=' http://x/a '>"))
    as [it [Hp [Hb [_ H]]]].
  exists it. split; [exact Hp|]. split; [exact Hb|].
  apply (H (lit " http://x/a ")); [reflexivity | discriminate | discriminate].
Defined.

(** ** The title field *)




(** ** The first anchor and the first image *)

(** C7: the anchor half holds ([first_marker_only] below); the image half
    fails on the code.  In [two_src_block] the first image is
    [<img src='a.png' data-src='b.png'>], with the source [a.png], and a
    second image follows; both scripts put [b.png] into the item.  In
    [unclosed_img_block] the image marker [<img src='a.png'] starts the
    block and a second marker follows; both scripts put the source of the
    second, [b.png], into the item.  The greedy [[^>]+] gives back as little
    as it can, so the last [src=] before the first [>] is the one that is
    captured. *)
Theorem first_image_not_captured :
  (two_src_block
   = sq "<img src='a.png'" ++ sq " data-src='b.png'>" ++ sq "<img src='c.png'>"
   /\ image_marker (sq "<img src='a.png'") (lit "a.png")
   /\ exists it,
        Parse.item 0 two_src_block = Ret it /\
        Build.item 0 two_src_block = Ret it /\
        image it = lit "b.png" /\ image it <> strip (lit "a.png")) /\
  (unclosed_img_block
   = sq "<img src='a.png'" ++ lit " " ++ sq "<img src='b.png'" ++ lit ">"
   /\ image_marker (sq "<img src='a.png'") (lit "a.png")
   /\ image_marker (sq "<img src='b.png'") (lit "b.png")
   /\ exists it,
        Parse.item 0 unclosed_img_block = Ret it /\
        Build.item 0 unclosed_img_block = Ret it /\
        image it = lit "b.png" /\ image it <> strip (lit "a.png")).
Proof.
  assert (Ma : image_marker (sq "<img src='a.png'") (lit "a.png")).
  { exists (lit " "). repeat split; try discriminate; reflexivity. }
  assert (Mb : image_marker (sq "<img src='b.png'") (lit "b.png")).
  { exists (lit " "). repeat split; try discriminate; reflexivity. }
  split.
  - split; [reflexivity|]. split; [exact Ma|].
    eexists. split; [vm_compute; reflexivity|].
    split; [vm_compute; reflexivity|].
    split; [vm_compute; reflexivity | vm_compute; discriminate].
  - split; [reflexivity|]. split; [exact Ma|]. split; [exact Mb|].
    eexists. split; [vm_compute; reflexivity|].
    split; [vm_compute; reflexivity|].
    split; [vm_compute; reflexivity | vm_compute; discriminate].
Qed.

(** The first-marker law where it holds: the link of an item comes from the
    first anchor marker of its block, whatever follows that marker; the image
    comes from the first image tag of the block, whatever follows its [>],
    when that tag is closed by [>] and has no further [src=] between its
    source and the [>]. *)
Lemma first_marker_only (i : nat) (pre post : str) :
  (forall m url,
      anchor_marker m url -> none_inside anchor_marker pre (m ++ post) ->
      exists it,
        Parse.item i (pre ++ m ++ post) = Ret it /\
        Build.item i (pre ++ m ++ post) = Ret it /\
        link it = normalized (strip url)) /\
  (forall a url b,
      a <> [] -> forallb (not_char ">") a = true ->
      url <> [] -> forallb (not_char dq) url = true ->
      forallb (not_char ">") url = true -> forallb (not_char ">") b = true ->
      contains (sq "src='") (sq "rc='" ++ url ++ dq :: b) = false ->
      none_inside image_marker pre
        (lit "<img" ++ a ++ sq "src='" ++ url ++ dq :: b ++ ">"%char :: post) ->
      exists it,
        Parse.item i (pre ++ lit "<img" ++ a ++ sq "src='" ++ url
                          ++ dq :: b ++ ">"%char :: post) = Ret it /\
        Build.item i (pre ++ lit "<img" ++ a ++ sq "src='" ++ url
                          ++ dq :: b ++ ">"%char :: post) = Ret it /\
        image it = strip url).
Proof.
  split.
  - intros m url Hm Hfirst. eexists.
    split; [apply parse_item_ret|]. split; [apply build_item_ret|].
    cbn [link item_at]. unfold link_field, anchor_value.
    rewrite (none_inside_search link_re anchor_marker anchor_lang
               pre (m ++ post) url post Hfirst (anchor_match _ _ _ Hm)).
    reflexivity.
  - intros a url b Ha Hgt Hu Hq Hugt Hbgt Hsrc Hfirst. eexists.
    split; [apply parse_item_ret|]. split; [apply build_item_ret|].
    cbn [image item_at]. unfold img_field.
    rewrite (none_inside_search img_re image_marker image_lang
               pre _ url (b ++ ">"%char :: post) Hfirst
               (image_match_closed a url b post Ha Hgt Hu Hq Hugt Hbgt Hsrc)).
    reflexivity.
Qed.

Example first_marker_only_two_anchors :
  (exists it,
      Parse.item 0 (sq "<p>" ++ sq "<a href='first'" ++ sq "><a href='second'>")
        = Ret it /\
      Build.item 0 (sq "<p>" ++ sq "<a href='first'" ++ sq "><a href='second'>")
        = Ret it /\
      link it = normalized (strip (lit "first"))) /\
  (exists it,
      Parse.item 0 (sq "<p>" ++ lit "<img" ++ sq " data-src='x' " ++ sq "src='"
                    ++ lit "one.png" ++ dq :: sq " alt='1'" ++ ">"%char
                    :: sq "<img src='two.png'>") = Ret it /\
      Build.item 0 (sq "<p>" ++ lit "<img" ++ sq " data-src='x' " ++ sq "src='"
                    ++ lit "one.png" ++ dq :: sq " alt='1'" ++ ">"%char
                    :: sq "<img src='two.png'>") = Ret it /\
      image it = strip (lit "one.png")).
Proof.
  split.
  - apply (proj1 (first_marker_only 0 (sq "<p>") (sq "><a href='second'>"))
             (sq "<a href='first'") (lit "first")).
    + exists (lit " "). repeat split; try discriminate; reflexivity.
    + apply (none_inside_b_ok link_re anchor_marker anchor_lang).
      vm_compute. reflexivity.
  - apply (proj2 (first_marker_only 0 (sq "<p>") (sq "<img src='two.png'>"))
             (sq " data-src='x' ") (lit "one.png") (sq " alt='1'"));
      try discriminate; try reflexivity.
    apply (none_inside_b_ok img_re image_marker image_lang).
    vm_compute. reflexivity.
Qed.

(** ** Locality *)

(** C3: the fields of the item at position [k] are functions of the block
    at position [k] of the split alone; and the items of the blocks before a
    block-boundary marker are those of the text before that marker, whatever
    text, with whatever title, anchor or image markers, follows it. *)
Theorem block_locality (a m : str) :
  block_marker m ->
  exists out_a,
    Parse.main a = Ret out_a /\ Build.extract a = Ret out_a /\
    length out_a = count_markers a /\
    forall b, exists out,
      Parse.main (a ++ m ++ b) = Ret out /\
      Build.extract (a ++ m ++ b) = Ret out /\
      firstn (length out_a) out = out_a /\
      forall k blk, nth_error (blocks_of (a ++ m ++ b)) k = Some blk ->
        exists it, nth_error out k = Some it /\
                   title it = title_field blk /\ image it = img_field blk /\
                   link it = link_field blk.
Proof.
  intros Hm. exists (items_of a).
  split; [apply parse_main_ret|]. split; [apply build_extract_ret|].
  split; [apply items_length|]. intros b. exists (items_of (a ++ m ++ b)).
  split; [apply parse_main_ret|]. split; [apply build_extract_ret|].
  split; [apply items_app; exact Hm|].
  intros k blk H. exists (item_at (k + 1) blk).
  split; [apply items_nth; exact H | auto].
Qed.

Lemma block_locality_witness :
  exists out_a,
    Parse.main one_block = Ret out_a /\ Build.extract one_block = Ret out_a /\
    length out_a = count_markers one_block /\
    forall b, exists out,
      Parse.main (one_block ++ boundary "2" ++ b) = Ret out /\
      Build.extract (one_block ++ boundary "2" ++ b) = Ret out /\
      firstn (length out_a) out = out_a /\
      forall k blk,
        nth_error (blocks_of (one_block ++ boundary "2" ++ b)) k = Some blk ->
        exists it, nth_error out k = Some it /\
                   title it = title_field blk /\ image it = img_field blk /\
                   link it = link_field blk.
Proof.
  apply (block_locality one_block (boundary "2")).
  exists (lit "2"). repeat split; try discriminate; reflexivity.
Defined.

(** ** No exception *)

(** C4: on every text both scripts return: the extraction raises nothing,
    gives the empty list when the text has no block-boundary marker, and
    gives an item for every block, with an empty title when the block has no
    title marker and an empty image when it has no image marker. *)
Theorem never_raises (html : str) :
  (exists o, Build.main html = Ret o) /\
  exists out,
    Parse.main html = Ret out /\ Build.extract html = Ret out /\
    (count_markers html = 0 -> out = []) /\
    forall k b, nth_error (blocks_of html) k = Some b ->
      exists it, nth_error out k = Some it /\
                 (absent title_marker b -> title it = []) /\
                 (absent image_marker b -> image it = []).
Proof.
  split.
  - unfold Build.main. destruct (Build.guard html); [eauto|].
    rewrite build_extract_ret. simpl. eauto.
  - exists (items_of html).
    split; [apply parse_main_ret|]. split; [apply build_extract_ret|]. split.
    + intros H. apply length_zero_iff_nil. rewrite items_length. exact H.
    + intros k b H. exists (item_at (k + 1) b).
      split; [apply items_nth; exact H|]. cbn [title image item_at]. split.
      * intros A. unfold title_field.
        apply (absent_search title_re title_marker title_lang) in A.
        rewrite A. reflexivity.
      * intros A. unfold img_field.
        apply (absent_search img_re image_marker image_lang) in A.
        rewrite A. reflexivity.
Qed.

Lemma never_raises_witness :
  Parse.main (sq "<div id='div_block-4-15103-x'><img src=''>") = Ret [] /\
  exists it,
    nth_error (items_of one_block) 0 = Some it /\
    title it = [] /\ image it = [].
Proof.
  destruct (never_raises (sq "<div id='div_block-4-15103-x'><img src=''>"))
    as [_ [out [Hp [_ [H0 _]]]]].
  split; [rewrite Hp, (H0 eq_refl); reflexivity|].
  destruct (never_raises one_block) as [_ [out1 [Hp1 [_ [_ H]]]]].
  destruct (H 0 (sq "><a href='http://x/a'>") eq_refl) as [it [Hn [Ht Hi]]].
  exists it. rewrite parse_main_ret in Hp1. inversion Hp1; subst out1.
  split; [exact Hn|]. split.
  - apply Ht. apply (absent_b_ok title_re title_marker title_lang).
    vm_compute. reflexivity.
  - apply Hi. apply (absent_b_ok img_re image_marker image_lang).
    vm_compute. reflexivity.
Defined.

(** ** Invariants of the fields *)

Section Fields.

Lemma trimmed_strip (s : str) : trimmed (strip s).
Proof.
  split; intros; [eapply strip_no_leading | eapply strip_no_trailing]; eauto.
Qed.

Lemma trimmed_nil : trimmed [].
Proof. exact (trimmed_strip []). Qed.

Lemma trimmed_placeholder : trimmed placeholder.
Proof. exact (trimmed_strip placeholder). Qed.

Lemma title_field_no_lt (b : str) : ~ In "<"%char (title_field b).
Proof.
  unfold title_field. destruct (search title_re b) as [mo|] eqn:E; [|tauto].
  apply search_some in E as [t [_ [H _]]].
  apply match_here_sound, title_lang in H
    as [m [[ds [at_ [_ [_ [_ [_ [Hg _]]]]]]] _]].
  apply not_char_all in Hg. intros H. apply Hg. exact (strip_incl _ _ H).
Qed.

Lemma img_field_no_dq (b : str) : ~ In dq (img_field b).
Proof.
  unfold img_field. destruct (search img_re b) as [mo|] eqn:E; [|tauto].
  apply search_some in E as [t [_ [H _]]].
  apply match_here_sound, image_lang in H as [m [[a [_ [_ [_ [Hg _]]]]] _]].
  apply not_char_all in Hg. intros H. apply Hg. exact (strip_incl _ _ H).
Qed.

Lemma link_field_cases (b : str) :
  link_field b = placeholder \/
  (exists v, anchor_value b = Some v /\ link_field b = strip v /\
             strip v <> [] /\ ~ In dq (strip v)).
Proof.
  unfold link_field, anchor_value.
  destruct (search link_re b) as [mo|] eqn:E; [|left; reflexivity].
  cbn [option_map].
  destruct (in_tuple (strip (m_group1 mo)) [[]; lit "#"]) eqn:T;
    [left; reflexivity|].
  right. exists (m_group1 mo). repeat split; auto.
  - intros H. rewrite H in T. discriminate.
  - apply search_some in E as [t [_ [H _]]].
    apply match_here_sound, anchor_lang in H as [m [[ws [_ [_ [_ [Hg _]]]]] _]].
    apply not_char_all in Hg. intros H. apply Hg. exact (strip_incl _ _ H).
Qed.

End Fields.

(** C10: in every item that either script emits, the title has no [<], the
    image and a link other than the placeholder have no double quote, none
    of the three fields starts or ends with white space, and the link is not
    empty: it is the placeholder or a trimmed captured value that is not
    empty. *)
Theorem item_field_invariants (html : str) (out : list PortfolioItem)
    (it : PortfolioItem) :
  Parse.main html = Ret out \/ Build.extract html = Ret out ->
  In it out ->
  ~ In "<"%char (title it) /\ ~ In dq (image it) /\
  (link it <> placeholder -> ~ In dq (link it)) /\
  trimmed (title it) /\ trimmed (image it) /\ trimmed (link it) /\
  link it <> [] /\
  (link it = placeholder \/
   exists k b v, nth_error (blocks_of html) k = Some b /\
                 anchor_value b = Some v /\ link it = strip v).
Proof.
  intros Hout Hin.
  assert (E : out = items_of html).
  { destruct Hout as [H|H];
      [rewrite parse_main_ret in H | rewrite build_extract_ret in H];
      inversion H; reflexivity. }
  subst out. unfold items_of in Hin. apply in_map_iff in Hin as [[k b] [<- Hin]].
  cbn [fst snd title image link item_at].
  assert (Hb : nth_error (blocks_of html) k = Some b).
  { unfold enumerate in Hin. apply In_nth_error in Hin as [n Hn].
    destruct (nth_error (blocks_of html) n) as [b'|] eqn:Eb.
    - rewrite (combine_seq_nth _ 0 _ _ Eb) in Hn. inversion Hn; subst.
      exact Eb.
    - apply nth_error_None in Eb.
      assert (L : n < length (combine (seq 0 (length (blocks_of html)))
                                      (blocks_of html))).
      { apply nth_error_Some. congruence. }
      rewrite length_combine, length_seq in L. lia. }
  split; [apply title_field_no_lt|]. split; [apply img_field_no_dq|].
  unfold title_field, img_field.
  destruct (link_field_cases b) as [Hl|[v [Hv [Hl [Hne Hq]]]]]; rewrite Hl.
  - split; [congruence|].
    split; [destruct (search title_re b); [apply trimmed_strip | apply trimmed_nil]|].
    split; [destruct (search img_re b); [apply trimmed_strip | apply trimmed_nil]|].
    split; [apply trimmed_placeholder|]. split; [discriminate | left; reflexivity].
  - split; [intros _; exact Hq|].
    split; [destruct (search title_re b); [apply trimmed_strip | apply trimmed_nil]|].
    split; [destruct (search img_re b); [apply trimmed_strip | apply trimmed_nil]|].
    split; [apply trimmed_strip|]. split; [exact Hne|].
    right. exists k, b, v. auto.
Qed.

Lemma item_field_invariants_witness :
  let it := {| index := 1; title := lit "Alpha"; image := lit "a.png";
               link := lit "http://x/a" |} in
  ~ In "<"%char (title it) /\ ~ In dq (image it) /\
  (link it <> placeholder -> ~ In dq (link it)) /\
  trimmed (title it) /\ trimmed (image it) /\ trimmed (link it) /\
  link it <> [] /\
  (link it = placeholder \/
   exists k b v, nth_error (blocks_of two_blocks) k = Some b /\
                 anchor_value b = Some v /\ link it = strip v).
Proof.
  cbv zeta.
  apply (item_field_invariants two_blocks (items_of two_blocks)).
  - left. apply parse_main_ret.
  - vm_compute. left. reflexivity.
Defined.

(** ** The scenarios of the specification, run on the model *)

Section Scenarios.

(** The empty text: no item from [parse_portfolio_html.py], the diagnostic
    from [build_portfolio_list.py]. *)
Example scenario_empty :
  Parse.main [] = Ret [] /\
  Build.main [] = Ret (Build.Refused Build.diagnostic).
Proof. split; reflexivity. Qed.

(** One block with a title, an image and a link. *)
Example scenario_one_block :
  Parse.main
    (boundary "1"
     ++ sq "><span id='span-225-15124-1'>Alpha</span>"
     ++ sq "<a href='http://x/a'><img class='i' src='a.png'></a>")
  = Ret [{| index := 1; title := lit "Alpha"; image := lit "a.png";
            link := lit "http://x/a" |}].
Proof. vm_compute. reflexivity. Qed.

(** Two blocks: the second has no title, and [#] as its first anchor. *)
Example scenario_two_blocks :
  Build.main two_blocks
  = Ret (Build.Wrote
           [{| index := 1; title := lit "Alpha"; image := lit "a.png";
               link := lit "http://x/a" |};
            {| index := 2; title := []; image := lit "b.png";
               link := placeholder |}]).
Proof. vm_compute. reflexivity. Qed.

End Scenarios.

(** * Further properties of the scripts *)

(** ** The split and the blocks *)

Section SplitStructure.

Lemma search_none_count (s : str) :
  search block_re s = None -> count_markers s = 0.
Proof.
  intros E. rewrite <- (app_nil_r s). apply (count_markers_skip s []).
  intros p1 p2 Hp Hne. apply marker_here_match.
  rewrite search_none in E. apply (E p1). rewrite app_nil_r. exact Hp.
Qed.

(** A marker that starts a text starts every extension of it. *)
Lemma marker_here_app (s t : str) :
  marker_here s = true -> marker_here (s ++ t) = true.
Proof.
  intros H. apply marker_here_spec in H as [m [rest [Hm ->]]].
  apply marker_here_spec. exists m, (rest ++ t).
  split; [exact Hm | rewrite app_assoc; reflexivity].
Qed.

Lemma before_match_count (pre t : str) :
  (forall p1 p2, pre = p1 ++ p2 -> p2 <> [] ->
                 match_here block_re (p2 ++ t) = None) ->
  count_markers pre = 0.
Proof.
  intros Hb. rewrite <- (app_nil_r pre). apply (count_markers_skip pre []).
  intros p1 p2 Hp Hne. rewrite app_nil_r.
  destruct (marker_here p2) eqn:E; [|reflexivity].
  apply (marker_here_app _ t) in E.
  pose proof (Hb p1 p2 Hp Hne) as N. apply marker_here_match in N.
  congruence.
Qed.

Lemma split_weave_length (html : str) :
  exists ms,
    Forall block_marker ms /\ S (length ms) = length (split block_re html) /\
    weave (split block_re html) ms = html.
Proof.
  remember (length html) as n eqn:En. revert html En.
  induction n as [n IH] using lt_wf_ind. intros html En.
  rewrite split_eq. destruct (search block_re html) as [mo|] eqn:E.
  - pose proof (block_search_shorter _ _ E) as L.
    apply search_some in E as [t [Es [Hm _]]].
    apply block_match_inv in Hm as [m [Hm [-> _]]].
    destruct (IH (length (m_after mo)) ltac:(lia) _ eq_refl)
      as [ms [Hms [Hl Hw]]].
    exists (m :: ms). split; [constructor; assumption|].
    split; [simpl; rewrite Hl; reflexivity|].
    cbn [weave]. rewrite Hw. symmetry. exact Es.
  - exists []. repeat split; constructor.
Qed.

Lemma split_segments_count (html seg : str) :
  In seg (split block_re html) -> count_markers seg = 0.
Proof.
  remember (length html) as n eqn:En. revert html En.
  induction n as [n IH] using lt_wf_ind. intros html En.
  rewrite split_eq. destruct (search block_re html) as [mo|] eqn:E.
  - pose proof (block_search_shorter _ _ E) as L.
    apply search_some in E as [t [Es [Hm Hb]]].
    intros [H|H].
    + subst seg. exact (before_match_count _ _ Hb).
    + exact (IH (length (m_after mo)) ltac:(lia) _ eq_refl H).
  - intros [H|[]]. subst seg. apply search_none_count. exact E.
Qed.

Lemma items_nil (s : str) : count_markers s = 0 -> items_of s = [].
Proof.
  intros H. apply length_zero_iff_nil. rewrite items_length. exact H.
Qed.

Lemma blocks_length (s : str) : length (blocks_of s) = count_markers s.
Proof.
  rewrite <- items_length. unfold items_of.
  rewrite length_map, enumerate_length. reflexivity.
Qed.

Lemma blocks_nil (s : str) : count_markers s = 0 -> blocks_of s = [].
Proof.
  intros H. apply length_zero_iff_nil. rewrite blocks_length. exact H.
Qed.

Lemma blocks_marker_first (m b : str) :
  block_marker m -> blocks_of (m ++ b) = split block_re b.
Proof.
  intros Hm. change (m ++ b) with ([] ++ m ++ b).
  rewrite (blocks_app _ _ _ Hm). reflexivity.
Qed.

Lemma item_at_shift (k j : nat) (b : str) :
  shift k (item_at (j + 1) b) = item_at (k + j + 1) b.
Proof. unfold shift, item_at. cbn. f_equal. lia. Qed.

Lemma combine_seq_shift (l : list str) (k j : nat) :
  map (fun p => item_at (fst p + 1) (snd p))
      (combine (seq (k + j) (length l)) l)
  = map (shift k)
        (map (fun p => item_at (fst p + 1) (snd p))
             (combine (seq j (length l)) l)).
Proof.
  revert j. induction l as [|b l IH]; intros j; [reflexivity|].
  cbn [length seq combine map fst snd]. rewrite item_at_shift. f_equal.
  replace (S (k + j)) with (k + S j) by lia. apply IH.
Qed.

End SplitStructure.

(** The split loses the markers and nothing else: there are as many markers
    as the text has, and the segments with these markers put back between
    them are the text. *)
Theorem split_reassembles (html : str) :
  exists ms,
    Forall block_marker ms /\ length ms = count_markers html /\
    weave (split block_re html) ms = html.
Proof.
  destruct (split_weave_length html) as [ms [Hms [Hl Hw]]].
  exists ms. repeat split; auto.
  rewrite split_length in Hl. lia.
Qed.

(** No segment of the split, and so no block, contains a block-boundary
    marker: run on a block of their own split, both scripts extract
    nothing. *)
Theorem blocks_have_no_marker (html seg : str) :
  In seg (split block_re html) ->
  count_markers seg = 0 /\ Parse.main seg = Ret [] /\ Build.extract seg = Ret [].
Proof.
  intros H. pose proof (split_segments_count _ _ H) as C.
  rewrite parse_main_ret, build_extract_ret, (items_nil _ C). auto.
Qed.

Lemma blocks_have_no_marker_witness :
  count_markers (sq "><a href='http://x/a'>") = 0 /\
  Parse.main (sq "><a href='http://x/a'>") = Ret [] /\
  Build.extract (sq "><a href='http://x/a'>") = Ret [].
Proof.
  apply (blocks_have_no_marker one_block). vm_compute. right. left. reflexivity.
Defined.

(** The preamble is discarded: a text without marker in front of the first
    marker changes nothing in what the scripts extract. *)
Theorem preamble_discarded (pre m b : str) :
  count_markers pre = 0 -> block_marker m ->
  Parse.main (pre ++ m ++ b) = Parse.main (m ++ b) /\
  Build.extract (pre ++ m ++ b) = Build.extract (m ++ b).
Proof.
  intros Hp Hm. rewrite !parse_main_ret, !build_extract_ret.
  unfold items_of.
  rewrite (blocks_app _ _ _ Hm), (blocks_nil _ Hp), (blocks_marker_first _ _ Hm).
  auto.
Qed.

Lemma preamble_discarded_witness :
  Parse.main (sq "<html><div id='x'>" ++ boundary "7" ++ sq "><img src='a'>")
  = Parse.main (boundary "7" ++ sq "><img src='a'>") /\
  Build.extract (sq "<html><div id='x'>" ++ boundary "7" ++ sq "><img src='a'>")
  = Build.extract (boundary "7" ++ sq "><img src='a'>").
Proof.
  apply (preamble_discarded (sq "<html><div id='x'>") (boundary "7")).
  - reflexivity.
  - exists (lit "7"). repeat split; try discriminate; reflexivity.
Defined.

(** The number in a block-boundary marker is never read: the items, their
    indices included, are the same whatever number a marker carries. *)
Theorem marker_number_ignored (a m1 m2 b : str) :
  block_marker m1 -> block_marker m2 ->
  Parse.main (a ++ m1 ++ b) = Parse.main (a ++ m2 ++ b) /\
  Build.extract (a ++ m1 ++ b) = Build.extract (a ++ m2 ++ b).
Proof.
  intros H1 H2. rewrite !parse_main_ret, !build_extract_ret.
  unfold items_of. rewrite (blocks_app _ _ _ H1), (blocks_app _ _ _ H2). auto.
Qed.

Lemma marker_number_ignored_witness :
  Parse.main (one_block ++ boundary "2" ++ sq "><img src='b'>")
  = Parse.main (one_block ++ boundary "999" ++ sq "><img src='b'>") /\
  Build.extract (one_block ++ boundary "2" ++ sq "><img src='b'>")
  = Build.extract (one_block ++ boundary "999" ++ sq "><img src='b'>").
Proof.
  apply (marker_number_ignored one_block (boundary "2") (boundary "999")).
  - exists (lit "2"). repeat split; try discriminate; reflexivity.
  - exists (lit "999"). repeat split; try discriminate; reflexivity.
Defined.

(** Extraction goes along with concatenation: the items of a text followed
    by a text that starts with a marker are the items of the first and then
    the items of the second, with their indices moved by the number of items
    of the first. *)
Theorem items_of_concatenation (a m b : str) :
  block_marker m ->
  exists oa od,
    Parse.main a = Ret oa /\ Parse.main (m ++ b) = Ret od /\
    Parse.main (a ++ m ++ b) = Ret (oa ++ map (shift (length oa)) od) /\
    Build.extract (a ++ m ++ b) = Ret (oa ++ map (shift (length oa)) od).
Proof.
  intros Hm. exists (items_of a), (items_of (m ++ b)).
  rewrite !parse_main_ret, build_extract_ret.
  assert (E : items_of (a ++ m ++ b)
              = items_of a ++ map (shift (length (items_of a))) (items_of (m ++ b))).
  { unfold items_of at 1 3 4, enumerate.
    rewrite (blocks_app _ _ _ Hm), (blocks_marker_first _ _ Hm).
    rewrite combine_seq_app, map_app. f_equal.
    rewrite Nat.add_0_l. rewrite <- (Nat.add_0_r (length (blocks_of a))) at 1.
    rewrite combine_seq_shift. f_equal.
    rewrite length_map, length_combine, length_seq, Nat.min_id.
    reflexivity. }
  rewrite E. auto.
Qed.

Lemma items_of_concatenation_witness :
  exists oa od,
    Parse.main one_block = Ret oa /\
    Parse.main (boundary "2" ++ sq "><img src='b'>") = Ret od /\
    Parse.main (one_block ++ boundary "2" ++ sq "><img src='b'>")
    = Ret (oa ++ map (shift (length oa)) od) /\
    Build.extract (one_block ++ boundary "2" ++ sq "><img src='b'>")
    = Ret (oa ++ map (shift (length oa)) od).
Proof.
  apply (items_of_concatenation one_block (boundary "2")).
  exists (lit "2"). repeat split; try discriminate; reflexivity.
Defined.

(** ** Anchors and images *)

Section FirstTag.

(** When every marker of a kind starts with a literal that has [<] at its
    start only, no marker starts inside a text that does not contain the
    literal, whatever text that starts with [<] follows it. *)
Lemma none_inside_literal (M : str -> str -> Prop) (L pre t : str) :
  (forall m g, M m g -> exists r, m = "<"%char :: L ++ r) ->
  ~ In "<"%char L ->
  contains ("<"%char :: L) pre = false ->
  none_inside M pre ("<"%char :: t).
Proof.
  intros HM HL Hc p1 p2 Hp Hne [m [g [rest [Hm E]]]].
  destruct (HM _ _ Hm) as [r ->].
  cbn [app] in E. rewrite <- app_assoc in E.
  change ("<"%char :: L ++ r ++ rest) with (("<"%char :: L) ++ r ++ rest) in E.
  apply app_eq_app in E as [l [[E1 E2]|[E1 E2]]].
  - assert (C : contains ("<"%char :: L) pre = true).
    { apply contains_spec. exists p1, l. rewrite Hp, E1. reflexivity. }
    congruence.
  - destruct l as [|c l].
    + assert (C : contains ("<"%char :: L) pre = true).
      { apply contains_spec. exists p1, []. rewrite Hp. rewrite app_nil_r in *.
        rewrite E1. reflexivity. }
      congruence.
    + cbn [app] in E2. injection E2 as Ec Et. subst c.
      destruct p2 as [|x p2]; [congruence|]. cbn [app] in E1.
      injection E1 as Ex EL. apply HL. rewrite EL.
      apply in_or_app. right. left. reflexivity.
Qed.

Lemma anchor_marker_literal (m g : str) :
  anchor_marker m g -> exists r, m = "<"%char :: lit "a" ++ r.
Proof. intros [ws [_ [_ [_ [_ ->]]]]]. eexists. reflexivity. Qed.

Lemma image_marker_literal (m g : str) :
  image_marker m g -> exists r, m = "<"%char :: lit "img" ++ r.
Proof. intros [a [_ [_ [_ [_ ->]]]]]. eexists. reflexivity. Qed.

Lemma anchor_marker_lt (m g : str) :
  anchor_marker m g -> exists r, m = "<"%char :: r.
Proof. intros [ws [_ [_ [_ [_ ->]]]]]. eexists. reflexivity. Qed.

End FirstTag.

(** The link of an item comes from the first anchor of its block: when no
    [<a] stands before an anchor marker, the link is the target of that
    marker, trimmed and normalized, whatever follows the marker, further
    anchors included. *)
Theorem link_from_first_anchor (i : nat) (pre m url post : str) :
  contains (lit "<a") pre = false -> anchor_marker m url ->
  exists it,
    Parse.item i (pre ++ m ++ post) = Ret it /\
    Build.item i (pre ++ m ++ post) = Ret it /\
    link it = normalized (strip url).
Proof.
  intros Hc Hm. apply (proj1 (first_marker_only i pre post) m url Hm).
  destruct (anchor_marker_lt _ _ Hm) as [r ->]. cbn [app].
  apply (none_inside_literal anchor_marker (lit "a")).
  - exact anchor_marker_literal.
  - vm_compute. intuition discriminate.
  - exact Hc.
Qed.

Lemma link_from_first_anchor_witness :
  exists it,
    Parse.item 0 (sq "<p><b>" ++ sq "<a href=' one '" ++ sq "><a href='two'>")
    = Ret it /\
    Build.item 0 (sq "<p><b>" ++ sq "<a href=' one '" ++ sq "><a href='two'>")
    = Ret it /\
    link it = normalized (strip (lit " one ")).
Proof.
  apply (link_from_first_anchor 0 (sq "<p><b>") (sq "<a href=' one '")).
  - reflexivity.
  - exists (lit " "). repeat split; try discriminate; reflexivity.
Defined.

(** The image of an item comes from the last [src=] of the first image tag
    of its block: when no [<img] stands before a tag [<img ...>] and no
    further [src=] stands between a source of that tag and its [>], that
    source is the image, whatever attributes, other [src=] included, come
    before it in the tag and whatever follows the [>]. *)
Theorem image_from_last_src (i : nat) (pre a url b post : str) :
  contains (lit "<img") pre = false ->
  a <> [] -> forallb (not_char ">") a = true ->
  url <> [] -> forallb (not_char dq) url = true ->
  forallb (not_char ">") url = true -> forallb (not_char ">") b = true ->
  contains (sq "src='") (sq "rc='" ++ url ++ dq :: b) = false ->
  exists it,
    Parse.item i (pre ++ lit "<img" ++ a ++ sq "src='" ++ url
                      ++ dq :: b ++ ">"%char :: post) = Ret it /\
    Build.item i (pre ++ lit "<img" ++ a ++ sq "src='" ++ url
                      ++ dq :: b ++ ">"%char :: post) = Ret it /\
    image it = strip url.
Proof.
  intros Hc Ha Hgt Hu Hq Hugt Hbgt Hsrc.
  apply (proj2 (first_marker_only i pre post) a url b); auto.
  change (lit "<img") with ("<"%char :: lit "img"). cbn [app].
  apply (none_inside_literal image_marker (lit "img")).
  - exact image_marker_literal.
  - vm_compute. intuition discriminate.
  - exact Hc.
Qed.

Lemma image_from_last_src_witness :
  exists it,
    Parse.item 0 (sq "<p>" ++ lit "<img" ++ sq " src='one.png' data-"
                  ++ sq "src='" ++ lit "two.png" ++ dq :: sq " alt='1'"
                  ++ ">"%char :: sq "<img src='three.png'>") = Ret it /\
    Build.item 0 (sq "<p>" ++ lit "<img" ++ sq " src='one.png' data-"
                  ++ sq "src='" ++ lit "two.png" ++ dq :: sq " alt='1'"
                  ++ ">"%char :: sq "<img src='three.png'>") = Ret it /\
    image it = strip (lit "two.png").
Proof.
  apply (image_from_last_src 0 (sq "<p>") (sq " src='one.png' data-")
           (lit "two.png") (sq " alt='1'") (sq "<img src='three.png'>"));
    try discriminate; reflexivity.
Defined.

Section AnchorShape.

(** After [<a] and its white space the anchor pattern wants [h]. *)
Lemma anchor_needs_href (ws : str) (c : ascii) (rest : str) :
  forallb is_space ws = true -> is_space c = false -> c <> "h"%char ->
  ~ starts anchor_marker (lit "<a" ++ ws ++ c :: rest).
Proof.
  intros Hsp Hc Hh [m [g [rest' [[ws' [_ [Hsp' [_ [_ ->]]]]] E]]]].
  rewrite <- !app_assoc in E. apply app_inv_head in E.
  change (sq "href='" ++ g ++ [dq] ++ rest')
    with ("h"%char :: sq "ref='" ++ g ++ [dq] ++ rest') in E.
  destruct (span_unique is_space ws ws' c "h" _ _ Hsp Hsp' Hc eq_refl E)
    as [_ [Ec _]]. congruence.
Qed.

(** No [<a] starts in the white space after [<a]. *)
Lemma no_second_anchor (ws : str) (c : ascii) (rest l y : str) :
  forallb is_space ws = true -> contains (lit "<a") (c :: rest) = false ->
  "a"%char :: ws ++ c :: rest <> l ++ lit "<a" ++ y.
Proof.
  intros Hsp Hc E. destruct l as [|z l]; [discriminate|].
  cbn [app] in E. injection E as _ E.
  apply app_eq_app in E as [k [[F1 F2]|[F1 F2]]].
  - destruct k as [|z' k].
    + cbn [app] in F2.
      assert (C : contains (lit "<a") (c :: rest) = true).
      { apply contains_spec. exists [], y. rewrite <- F2. reflexivity. }
      congruence.
    + injection F2 as Fz F2. subst z'.
      rewrite F1, forallb_app in Hsp.
      apply andb_true_iff in Hsp as [_ Hsp]. discriminate.
  - assert (C : contains (lit "<a") (c :: rest) = true).
    { apply contains_spec. exists k, y. exact F2. }
    congruence.
Qed.

End AnchorShape.

(** The anchor pattern wants [href] as the first attribute.  A block whose
    only [<a] is followed, after its white space, by a character other than
    [h] (the start of another attribute) has no anchor for the scripts, and
    the link of its item is the placeholder, even when an [href] comes
    later in the tag. *)
Theorem anchor_other_attribute_first (i : nat) (pre ws : str) (c : ascii)
    (rest : str) :
  contains (lit "<a") pre = false ->
  ws <> [] -> forallb is_space ws = true ->
  is_space c = false -> c <> "h"%char ->
  contains (lit "<a") (c :: rest) = false ->
  exists it,
    Parse.item i (pre ++ lit "<a" ++ ws ++ c :: rest) = Ret it /\
    Build.item i (pre ++ lit "<a" ++ ws ++ c :: rest) = Ret it /\
    link it = placeholder.
Proof.
  intros Hpre Hws Hsp Hc Hh Hrest. eexists.
  split; [apply parse_item_ret|]. split; [apply build_item_ret|].
  cbn [link item_at]. unfold link_field, anchor_value.
  assert (A : absent anchor_marker (pre ++ lit "<a" ++ ws ++ c :: rest)).
  { intros p t E S.
    apply app_eq_app in E as [l [[E1 E2]|[E1 E2]]].
    - destruct l as [|x l].
      + rewrite E2 in S. exact (anchor_needs_href ws c rest Hsp Hc Hh S).
      + rewrite E2 in S.
        apply (none_inside_literal anchor_marker (lit "a") pre
                 (lit "a" ++ ws ++ c :: rest) anchor_marker_literal
                 ltac:(vm_compute; intuition discriminate) Hpre
                 p (x :: l) E1 ltac:(discriminate)).
        exact S.
    - destruct l as [|x l].
      + cbn [app] in E2. rewrite <- E2 in S.
        exact (anchor_needs_href ws c rest Hsp Hc Hh S).
      + destruct S as [m [g [rest' [Hm Et]]]].
        destruct (anchor_marker_literal _ _ Hm) as [r Em].
        rewrite Et, Em in E2.
        change (lit "<a" ++ ws ++ c :: rest)
          with ("<"%char :: "a"%char :: ws ++ c :: rest) in E2.
        cbn [app] in E2. injection E2 as _ E2.
        apply (no_second_anchor ws c rest l (r ++ rest') Hsp Hrest).
        rewrite E2. reflexivity. }
  apply (absent_search link_re anchor_marker anchor_lang) in A.
  rewrite A. reflexivity.
Qed.

Lemma anchor_other_attribute_first_witness :
  exists it,
    Parse.item 0 (sq "<p>" ++ lit "<a" ++ lit " "
                  ++ "c"%char :: sq "lass='x' href='http://x/a'>go</a>")
    = Ret it /\
    Build.item 0 (sq "<p>" ++ lit "<a" ++ lit " "
                  ++ "c"%char :: sq "lass='x' href='http://x/a'>go</a>")
    = Ret it /\
    link it = placeholder.
Proof.
  apply (anchor_other_attribute_first 0 (sq "<p>") (lit " ") "c"
           (sq "lass='x' href='http://x/a'>go</a>"));
    try discriminate; reflexivity.
Defined.

(** ** The runs of [parse_portfolio_html.py] *)

Section ParseRuns.




End ParseRuns.





(** ** The runs of [build_portfolio_list.py] *)

Section BuildRuns.

Lemma sentinel_not_blank (HTML : str) :
  contains Build.sentinel HTML = true -> strip HTML <> [].
Proof.
  intros H E. apply contains_spec in H as [x [y ->]].
  apply strip_blank in E. rewrite !forallb_app in E.
  apply andb_true_iff in E as [_ E]. apply andb_true_iff in E as [E _].
  vm_compute in E. discriminate.
Qed.

Lemma guard_sentinel (HTML : str) :
  Build.guard HTML = negb (contains Build.sentinel HTML).
Proof.
  unfold Build.guard. destruct (contains Build.sentinel HTML) eqn:E.
  - pose proof (sentinel_not_blank _ E) as N.
    destruct (strip HTML); [congruence | reflexivity].
  - apply orb_true_r.
Qed.

Lemma build_main_accepts (HTML : str) :
  contains Build.sentinel HTML = true ->
  Build.main HTML = Ret (Build.Wrote (items_of HTML)).
Proof.
  intros H. unfold Build.main. rewrite guard_sentinel, H. cbn [negb].
  rewrite build_extract_ret. reflexivity.
Qed.

Lemma write_print_items (out : list PortfolioItem) (f : str) :
  BuildIO.write_items out f = ParseIO.print_items out f.
Proof.
  revert f. induction out as [|o out IH]; intros f; [reflexivity|].
  cbn [BuildIO.write_items ParseIO.print_items]. rewrite IH. f_equal.
  unfold print. rewrite <- !app_assoc. reflexivity.
Qed.

End BuildRuns.

(** The blank test of the guard never decides: a text that contains the
    sentinel is not blank, so the script refuses exactly the texts that do
    not contain [div_block-4-15103-2]. *)
Theorem build_guard_is_sentinel_test (HTML : str) :
  Build.guard HTML = negb (contains Build.sentinel HTML) /\
  (Build.main HTML = Ret (Build.Refused Build.diagnostic) <->
   ~ exists x y, HTML = x ++ Build.sentinel ++ y).
Proof.
  split; [apply guard_sentinel|]. rewrite <- contains_spec.
  unfold Build.main. rewrite guard_sentinel.
  destruct (contains Build.sentinel HTML); cbn [negb].
  - rewrite build_extract_ret. cbn [bind]. split; [discriminate | congruence].
  - split; [discriminate | reflexivity].
Qed.

(** A run on a text with the sentinel, with a writable target: the script
    writes to [portfolio_list.txt] the lines of the items of the text,
    prints on stdout the number of block-boundary markers of the text as the
    number of items written, prints nothing on stderr and returns. *)
Theorem build_run_writes_items (w : world) (HTML : str) :
  contains Build.sentinel HTML = true -> writable w = true ->
  BuildIO.main w HTML =
  {| stdout := lit "Wrote " ++ dec (count_markers HTML) ++ lit " items to "
               ++ list_path w ++ [nl];
     stderr := [];
     written := Some (list_path w, BuildIO.write_items (items_of HTML) []);
     status := Returned |}.
Proof.
  intros H Hw. unfold BuildIO.main. rewrite (build_main_accepts _ H), Hw.
  rewrite items_length. unfold print. cbn [app].
  rewrite <- !app_assoc. reflexivity.
Qed.

Lemma build_run_writes_items_witness :
  BuildIO.main
    {| prog := lit "b.py"; args := []; stdin := Decoded [];
       files := fun _ => Missing; shown := fun s => s;
       source_path := lit "portfolio_source.html";
       list_path := lit "portfolio_list.txt"; writable := true;
       left_behind := None |}
    two_blocks
  = {| stdout := lit "Wrote " ++ dec (count_markers two_blocks)
                 ++ lit " items to " ++ lit "portfolio_list.txt" ++ [nl];
       stderr := [];
       written := Some (lit "portfolio_list.txt",
                        BuildIO.write_items (items_of two_blocks) []);
       status := Returned |}.
Proof.
  apply (build_run_writes_items
           {| prog := lit "b.py"; args := []; stdin := Decoded [];
              files := fun _ => Missing; shown := fun s => s;
              source_path := lit "portfolio_source.html";
              list_path := lit "portfolio_list.txt"; writable := true;
       left_behind := None |}
           two_blocks); reflexivity.
Defined.



(** The sentinel is not a marker: a text that contains the sentinel and no
    block-boundary marker passes the guard, and the script then writes an
    empty file and reports 0 items. *)
Theorem build_accepts_text_without_marker (w : world) (HTML : str) :
  contains Build.sentinel HTML = true -> count_markers HTML = 0 ->
  writable w = true ->
  BuildIO.main w HTML =
  {| stdout := lit "Wrote 0 items to " ++ list_path w ++ [nl];
     stderr := []; written := Some (list_path w, []); status := Returned |}.
Proof.
  intros H H0 Hw. rewrite (build_run_writes_items _ _ H Hw).
  rewrite H0, (items_nil _ H0). reflexivity.
Qed.

Lemma build_accepts_text_without_marker_witness :
  BuildIO.main
    {| prog := lit "b.py"; args := []; stdin := Decoded [];
       files := fun _ => Missing; shown := fun s => s;
       source_path := lit "portfolio_source.html";
       list_path := lit "portfolio_list.txt"; writable := true;
       left_behind := None |}
    (sq "<style>#div_block-4-15103-2 { color: red }</style>")
  = {| stdout := lit "Wrote 0 items to " ++ lit "portfolio_list.txt" ++ [nl];
       stderr := []; written := Some (lit "portfolio_list.txt", []);
       status := Returned |}.
Proof.
  apply (build_accepts_text_without_marker
           {| prog := lit "b.py"; args := []; stdin := Decoded [];
              files := fun _ => Missing; shown := fun s => s;
              source_path := lit "portfolio_source.html";
              list_path := lit "portfolio_list.txt"; writable := true;
       left_behind := None |}
           (sq "<style>#div_block-4-15103-2 { color: red }</style>"));
    reflexivity.
Defined.

(** A text with a block-boundary marker whose number starts with 2 is never
    refused: with a writable target the script returns and writes at least
    one item. *)
Theorem build_accepts_block_two (w : world) (a ds b : str) :
  forallb is_digit ds = true -> writable w = true ->
  exists o out,
    BuildIO.main w (a ++ block_lit ++ ("2"%char :: ds) ++ dq :: b) =
    {| stdout := lit "Wrote " ++ dec (S (length out)) ++ lit " items to "
                 ++ list_path w ++ [nl];
       stderr := [];
       written := Some (list_path w, BuildIO.write_items (o :: out) []);
       status := Returned |}.
Proof.
  intros Hd Hw.
  set (HTML := a ++ block_lit ++ ("2"%char :: ds) ++ dq :: b).
  assert (Hs : contains Build.sentinel HTML = true).
  { apply contains_spec. exists (a ++ sq "<div id='"), (ds ++ dq :: b).
    unfold HTML. rewrite <- !app_assoc. reflexivity. }
  assert (Hm : block_marker (block_lit ++ ("2"%char :: ds) ++ [dq])).
  { exists ("2"%char :: ds). repeat split; [discriminate|].
    cbn [forallb]. rewrite Hd. reflexivity. }
  assert (Hc : count_markers HTML = S (count_markers a + count_markers b)).
  { rewrite <- blocks_length.
    replace HTML with (a ++ (block_lit ++ ("2"%char :: ds) ++ [dq]) ++ b)
      by (unfold HTML; rewrite <- !app_assoc; reflexivity).
    rewrite (blocks_app _ _ _ Hm), length_app, blocks_length, split_length.
    lia. }
  rewrite (build_run_writes_items _ _ Hs Hw).
  destruct (items_of HTML) as [|o out] eqn:E.
  - apply (f_equal (@length _)) in E. rewrite items_length, Hc in E.
    discriminate.
  - exists o, out. apply (f_equal (@length _)) in E.
    rewrite items_length in E. rewrite E. reflexivity.
Qed.

Lemma build_accepts_block_two_witness :
  exists o out,
    BuildIO.main
      {| prog := lit "b.py"; args := []; stdin := Decoded [];
         files := fun _ => Missing; shown := fun s => s;
         source_path := lit "portfolio_source.html";
         list_path := lit "portfolio_list.txt"; writable := true;
       left_behind := None |}
      (sq "<html>" ++ block_lit ++ ("2"%char :: lit "7") ++ dq :: sq "></div>")
    = {| stdout := lit "Wrote " ++ dec (S (length out)) ++ lit " items to "
                   ++ lit "portfolio_list.txt" ++ [nl];
         stderr := [];
         written := Some (lit "portfolio_list.txt",
                          BuildIO.write_items (o :: out) []);
         status := Returned |}.
Proof.
  apply (build_accepts_block_two
           {| prog := lit "b.py"; args := []; stdin := Decoded [];
              files := fun _ => Missing; shown := fun s => s;
              source_path := lit "portfolio_source.html";
              list_path := lit "portfolio_list.txt"; writable := true;
       left_behind := None |}
           (sq "<html>") (lit "7") (sq "></div>")); reflexivity.
Defined.

(** ** The printed text *)

Section Printed.

Lemma print_items_app (out : list PortfolioItem) (f : str) :
  ParseIO.print_items out f = f ++ ParseIO.print_items out [].
Proof.
  revert f. induction out as [|o out IH]; intros f.
  - cbn. rewrite app_nil_r. reflexivity.
  - cbn [ParseIO.print_items]. rewrite IH. symmetry. rewrite IH.
    unfold print. cbn [app]. rewrite <- !app_assoc. reflexivity.
Qed.

Lemma uint_no_nl (d : Decimal.uint) :
  ~ In nl (lit (NilEmpty.string_of_uint d)).
Proof.
  induction d; cbn; intros H; try tauto;
    destruct H as [H|H]; try discriminate; tauto.
Qed.

Lemma dec_no_nl (n : nat) : ~ In nl (dec n).
Proof. apply uint_no_nl. Qed.

Lemma count_nl_free (s : str) : ~ In nl s -> count_occ ascii_dec s nl = 0.
Proof. apply count_occ_not_In. Qed.

End Printed.



(** Four lines for each item: when no field of the items has a line feed,
    the printed text, and so the written file, has four line feeds for every
    item. *)
Theorem four_lines_per_item (out : list PortfolioItem) :
  (forall o, In o out ->
             ~ In nl (title o) /\ ~ In nl (image o) /\ ~ In nl (link o)) ->
  count_occ ascii_dec (ParseIO.print_items out []) nl = 4 * length out /\
  count_occ ascii_dec (BuildIO.write_items out []) nl = 4 * length out.
Proof.
  intros H. rewrite write_print_items.
  assert (E : count_occ ascii_dec (ParseIO.print_items out []) nl
              = 4 * length out); [|auto].
  induction out as [|o out IH]; [reflexivity|].
  cbn [ParseIO.print_items]. rewrite print_items_app.
  destruct (H o (or_introl eq_refl)) as [Ht [Hi Hl]].
  rewrite count_occ_app, IH by (intros o' Ho'; apply H; right; exact Ho').
  unfold print. rewrite !count_occ_app.
  rewrite (count_nl_free _ (dec_no_nl (index o))).
  rewrite (count_nl_free _ Ht), (count_nl_free _ Hi), (count_nl_free _ Hl).
  cbn [length]. cbn. lia.
Qed.

Lemma four_lines_per_item_witness :
  count_occ ascii_dec (ParseIO.print_items (items_of two_blocks) []) nl
  = 4 * length (items_of two_blocks) /\
  count_occ ascii_dec (BuildIO.write_items (items_of two_blocks) []) nl
  = 4 * length (items_of two_blocks).
Proof.
  apply (four_lines_per_item (items_of two_blocks)).
  vm_compute. intros o [<-|[<-|[]]]; cbn;
    repeat split; intros H; repeat (destruct H as [H|H]; [discriminate|]);
    exact H.
Defined.
